(** * Avida's associative lookup core: [tHashTable] and [tDictionary]

    A shallow embedding of [source/tools/tHashTable.h] (which also carries
    [tDictionary.h]) and the proofs of its specification, with the bounded
    printer of [source/platform/tcmalloc/tcmalloc-logging.cc] beside it.

    Conventions of the embedding.
    - A method that can stop on [assert], run into undefined behaviour
      (an invalid node pointer, an index outside the cell array, a
      remainder by zero) or propagate a conversion error returns an
      [outcome].
    - A [tListNode] is identified by its address, a [ptr]; a [tList] is the
      sequence of its nodes from [root.next] to [root.prev].
    - The member [list_it] is a scratch cursor: every method of the table
      positions it ([Reset] or [Set]) before reading it, so its value on
      entry never influences a method.  It is modelled as a variable local
      to each method.
    - The [int] counters [entry_count] and [table_size] are kept in [Z];
      an overflow of [entry_count] would need 2^31 live entries. *)

From Stdlib Require Import ZArith Lia Ascii String.
From stdpp Require Import base list sorting.

Local Open Scope Z_scope.

(** ** Outcomes of a method call *)

Inductive failure : Type :=
| AssertFailed      (* an [assert] fired *)
| Undefined         (* undefined behaviour, or a loop bound exceeded *)
| ConversionFailed. (* [cStringUtil::Convert] rejected its input *)

Inductive outcome (A : Type) : Type :=
| Done (a : A)
| Fail (f : failure).

Arguments Done {A} a.
Arguments Fail {A} f.

Definition bind {A B : Type} (c : outcome A) (k : A -> outcome B) : outcome B :=
  match c with
  | Done a => k a
  | Fail f => Fail f
  end.

Notation "'let*' x := c 'in' k" := (bind c (fun x => k))
  (at level 10, x pattern, c at level 100, k at level 200).

(** ** The doubly linked list [tList] and its iterator

    [tList.h] is not among the sources.  The list is modelled from what
    [tHashTable.h] says of it: the comments on insertion, deletion and
    lookup at the head of the file, and the calls the methods make. *)

Definition ptr := nat.

(** The node an iterator stands on: the list's [root] sentinel (whose
    [data] is [NULL]) or a data node. *)
Inductive pos : Type :=
| Root
| At (a : ptr).

Definition pos_eqb (p q : pos) : bool :=
  match p, q with
  | Root, Root => true
  | At a, At b => Nat.eqb a b
  | _, _ => false
  end.

Abbreviation tList T := (list (ptr * T)).

Module tList.
Section Ops.
Context {T : Type}.

(** Modelled from the spec: [root.next] and [root.prev] of the circular
    list of the absent [tList.h]; both are [root] itself when the list is
    empty. *)
Definition first_pos (l : tList T) : pos :=
  match l with
  | [] => Root
  | (a, _) :: _ => At a
  end.

Definition last_pos (l : tList T) : pos := first_pos (rev l).

(** Modelled from the spec: following the links of the absent [tList.h]
    from the node at address [a]; the nodes before it, its data, and the
    nodes after it, [None] when no node of the list has this address. *)
Fixpoint split_at (a : ptr) (l : tList T) : option (tList T * T * tList T) :=
  match l with
  | [] => None
  | (b, x) :: r =>
      if Nat.eqb a b then Some ([], x, r)
      else match split_at a r with
           | Some (l1, y, l2) => Some ((b, x) :: l1, y, l2)
           | None => None
           end
  end.

(** Modelled from the spec: the address [new tListNode] returns in
    [tList::Insert], one that no live node of the list has. *)
Definition fresh_ptr (l : tList T) : ptr := S (foldr Nat.max O (l.*1)).

(** Modelled from the spec: [tList::Insert(it, data)] of the absent
    [tList.h]; a new node holding [x] is linked in immediately before
    the iterator's node (before [root]: at the tail).  The iterator
    stays where it is. *)
Definition Insert (l : tList T) (it : pos) (x : T) : outcome (tList T) :=
  match it with
  | Root => Done (l ++ [(fresh_ptr l, x)])
  | At a =>
      match split_at a l with
      | Some (l1, y, l2) => Done (l1 ++ (fresh_ptr l, x) :: (a, y) :: l2)
      | None => Fail Undefined
      end
  end.

(** Modelled from the spec: [tList::GetSize()], the number of nodes. *)
Definition GetSize (l : tList T) : Z := Z.of_nat (length l).
End Ops.
End tList.

Module tListIterator.
Section Ops.
Context {T : Type}.

(** Modelled from the spec: [tListIterator::Reset()] of the absent
    [tList.h] puts the iterator on [root]; [AtRoot()] tests for it. *)
Definition Reset : pos := Root.

Definition AtRoot (it : pos) : bool := pos_eqb it Root.

(** Modelled from the spec: [tListIterator::Get()], [node->data];
    [None] is the [NULL] data of [root]. *)
Definition Get (l : tList T) (it : pos) : outcome (option T) :=
  match it with
  | Root => Done None
  | At a =>
      match tList.split_at a l with
      | Some (_, x, _) => Done (Some x)
      | None => Fail Undefined
      end
  end.

(** Modelled from the spec: [tListIterator::Next()] moves to
    [node->next]; the caller reads the data with [Get]. *)
Definition Next (l : tList T) (it : pos) : outcome pos :=
  match it with
  | Root => Done (tList.first_pos l)
  | At a =>
      match tList.split_at a l with
      | Some (_, _, l2) => Done (tList.first_pos l2)
      | None => Fail Undefined
      end
  end.

(** Modelled from the spec: [tListIterator::Prev()] moves to
    [node->prev]. *)
Definition Prev (l : tList T) (it : pos) : outcome pos :=
  match it with
  | Root => Done (tList.last_pos l)
  | At a =>
      match tList.split_at a l with
      | Some (l1, _, _) => Done (tList.last_pos l1)
      | None => Fail Undefined
      end
  end.

(** Modelled from the spec: [tListIterator::Remove()] unlinks the
    iterator's node and returns its data; the list moves every iterator
    standing on that node back to the previous one.  On [root] nothing is
    removed and [NULL] is returned. *)
Definition Remove (l : tList T) (it : pos) : outcome (option T * tList T * pos) :=
  match it with
  | Root => Done (None, l, Root)
  | At a =>
      match tList.split_at a l with
      | Some (l1, x, l2) => Done (Some x, l1 ++ l2, tList.last_pos l1)
      | None => Fail Undefined
      end
  end.

(** Modelled from the spec: an assignment through the data pointer of the
    iterator's node, as [cur_entry->data = data] in [SetValue]. *)
Definition Store (l : tList T) (it : pos) (x : T) : outcome (tList T) :=
  match it with
  | Root => Fail Undefined
  | At a =>
      match tList.split_at a l with
      | Some (l1, _, l2) => Done (l1 ++ (a, x) :: l2)
      | None => Fail Undefined
      end
  end.
End Ops.
End tListIterator.

(** ** The cell array [tArray<tListNode*>]

    [tArray.h] is not among the sources either: a fixed-length sequence
    of slots, as the data model of the specification has it. *)

Module tArray.
Section Ops.
Context {X : Type}.

(** Modelled from the spec: [a[i]] of the absent [tArray.h]; an index
    outside the array has no defined result. *)
Definition get (a : list X) (i : Z) : outcome X :=
  if (i <? 0)%Z then Fail Undefined
  else match a !! Z.to_nat i with
       | Some x => Done x
       | None => Fail Undefined
       end.

(** Modelled from the spec: [a[i] = x] of the absent [tArray.h]. *)
Definition set (a : list X) (i : Z) (x : X) : outcome (list X) :=
  if (i <? 0)%Z then Fail Undefined
  else if (Z.to_nat i <? length a)%nat then Done (<[Z.to_nat i := x]> a)
  else Fail Undefined.
End Ops.
End tArray.

(** ** Key kinds *)

(** What the table needs of [HASH_TYPE]: [operator==], [operator>] and the
    [HashKey] overload, here with the table size as an explicit argument. *)
Class HashType (K : Type) : Type := {
  key_eqb : K -> K -> bool;
  key_gtb : K -> K -> bool;
  hash : Z -> K -> Z;
  key_eqb_eq : forall a b, key_eqb a b = true <-> a = b;
  key_gtb_irrefl : forall a, key_gtb a a = false;
  key_gtb_trans : forall a b c, key_gtb a b = true -> key_gtb b c = true -> key_gtb a c = true;
  key_gtb_total : forall a b, key_gtb a b = false -> key_gtb b a = false -> a = b;
  hash_range : forall ts k, 0 < ts -> 0 <= hash ts k < ts
}.

(** [HASH_TYPE = int]: [abs(key % table_size)], [%] truncating. *)
Definition HashKey_int (table_size key : Z) : Z := Z.abs (Z.rem key table_size).

(** [HASH_TYPE = void*]: [abs(((int)key >> 2) % table_size)]; the cast
    keeps the low 32 bits of the address as a signed [int]. *)
Record voidp : Type := mk_voidp { addr : Z }.

Definition to_int (x : Z) : Z := (x + 2 ^ 31) mod 2 ^ 32 - 2 ^ 31.

Definition HashKey_voidp (table_size : Z) (key : voidp) : Z :=
  Z.abs (Z.rem (Z.shiftr (to_int (addr key)) 2) table_size).

(** Modelled from the spec: a [cString] of the absent [cString.h] is a
    sequence of characters. *)
Definition cString := string.

(** [HASH_TYPE = cString]: the sum of the characters as [unsigned int],
    modulo the table size.  [char] is the signed 8-bit type of the usual
    platforms, so the cast to [unsigned int] sign-extends.  For a table
    size that is a positive [int] the conversions around [%] change
    nothing. *)
Definition char_val (c : ascii) : Z :=
  let n := Z.of_N (N_of_ascii c) in if n <? 128 then n else n - 256.

Definition to_unsigned (x : Z) : Z := x mod 2 ^ 32.

Fixpoint sum_chars (out_hash : Z) (s : cString) : Z :=
  match s with
  | EmptyString => out_hash
  | String c s' => sum_chars (to_unsigned (out_hash + to_unsigned (char_val c))) s'
  end.

Definition HashKey_cString (table_size : Z) (key : cString) : Z :=
  sum_chars 0 key mod table_size.

(** Modelled from the spec: the comparison of the absent [cString.h],
    lexicographic on the character values. *)
Fixpoint cString_compare (a b : cString) : comparison :=
  match a, b with
  | EmptyString, EmptyString => Eq
  | EmptyString, String _ _ => Lt
  | String _ _, EmptyString => Gt
  | String c a', String d b' =>
      match Z.compare (char_val c) (char_val d) with
      | Eq => cString_compare a' b'
      | r => r
      end
  end.

Definition cString_eqb (a b : cString) : bool :=
  match cString_compare a b with Eq => true | _ => false end.

Definition cString_gtb (a b : cString) : bool :=
  match cString_compare a b with Gt => true | _ => false end.

(** Modelled from the spec: [cString::GetSize()], the length. *)
Definition cString_size (s : cString) : Z := Z.of_nat (String.length s).

(** ** The hash table *)

Record tHashEntry (K V : Type) : Type := mkEntry {
  key : K;
  id : Z;
  data : V
}.

Arguments mkEntry {K V} key id data.
Arguments key {K V} t.
Arguments id {K V} t.
Arguments data {K V} t.

Record tHashTable (K V : Type) : Type := mkTable {
  entry_count : Z;
  table_size : Z;
  entry_list : tList (tHashEntry K V);
  cell_array : list (option pos)
}.

Arguments mkTable {K V} entry_count table_size entry_list cell_array.
Arguments entry_count {K V} t.
Arguments table_size {K V} t.
Arguments entry_list {K V} t.
Arguments cell_array {K V} t.

Definition HASH_TABLE_SIZE_DEFAULT : Z := 23.
Definition HASH_TABLE_SIZE_MEDIUM : Z := 331.
Definition HASH_TABLE_SIZE_LARGE : Z := 2311.

Section Table.
Context {K V : Type} `{HashType K} `{Inhabited V}.

Abbreviation entry := (tHashEntry K V).
Abbreviation table := (tHashTable K V).

(** [HashKey(key)] under a given table size; [%] by zero is undefined. *)
Definition HashKey_at (size : Z) (k : K) : outcome Z :=
  if size =? 0 then Fail Undefined else Done (hash size k).

Definition HashKey (t : table) (k : K) : outcome Z :=
  HashKey_at (table_size t) k.

(** The constructor: [in_table_size] empty cells, no entry.  An array
    of negative size cannot be built. *)
Definition tHashTable_new (in_table_size : Z) : outcome table :=
  if in_table_size <? 0 then Fail Undefined
  else Done (mkTable 0 in_table_size [] (replicate (Z.to_nat in_table_size) None)).

(** [list_it.Set(cell_array[bin])], or [list_it.Reset()] on an empty cell. *)
Definition insert_point (c : option pos) : pos :=
  match c with
  | None => tListIterator.Reset
  | Some p => p
  end.

(** The loop of [FindEntry]: walk the run of [bin] from the iterator.
    The result stands for the [tHashEntry*]: the node that holds it.
    [fuel] bounds the walk; the callers pass more steps than the list has
    nodes, and the bound is never reached ([FindEntry_loop_scan] and its
    like below). *)
Fixpoint FindEntry_loop (fuel : nat) (l : tList entry) (bin : Z) (k : K)
    (list_it : pos) : outcome (option pos) :=
  match fuel with
  | O => Fail Undefined
  | S fuel' =>
      let* cur := tListIterator.Get l list_it in
      match cur with
      | None => Done None
      | Some e =>
          if id e =? bin then
            if key_eqb (key e) k then Done (Some list_it)
            else let* list_it := tListIterator.Next l list_it in
                 FindEntry_loop fuel' l bin k list_it
          else Done None
      end
  end.

Definition FindEntry (t : table) (k : K) : outcome (option pos) :=
  let* bin := HashKey t k in
  let* c := tArray.get (cell_array t) bin in
  match c with
  | None => Done None
  | Some p => FindEntry_loop (S (length (entry_list t))) (entry_list t) bin k p
  end.

Definition GetSize (t : table) : Z := entry_count t.

Definition Add (t : table) (k : K) (d : V) : outcome table :=
  let* bin := HashKey t k in
  let new_entry := mkEntry k bin d in
  let* c := tArray.get (cell_array t) bin in
  let list_it := insert_point c in
  let* l := tList.Insert (entry_list t) list_it new_entry in
  let* list_it := tListIterator.Prev l list_it in
  let* cells := tArray.set (cell_array t) bin (Some list_it) in
  Done (mkTable (entry_count t + 1) (table_size t) l cells).

Definition SetValue (t : table) (k : K) (d : V) : outcome table :=
  let* cur_entry := FindEntry t k in
  match cur_entry with
  | None => Add t k d
  | Some p =>
      let* cur := tListIterator.Get (entry_list t) p in
      match cur with
      | None => Fail Undefined
      | Some e =>
          let* l := tListIterator.Store (entry_list t) p (mkEntry (key e) (id e) d) in
          Done (mkTable (entry_count t) (table_size t) l (cell_array t))
      end
  end.

Definition HasEntry (t : table) (k : K) : outcome bool :=
  let* found := FindEntry t k in
  Done (match found with Some _ => true | None => false end).

(** [Find(key, out_data)]: the flag returned and the final [out_data]. *)
Definition Find (t : table) (k : K) (out_data : V) : outcome (bool * V) :=
  let* found_entry := FindEntry t k in
  match found_entry with
  | Some p =>
      let* cur := tListIterator.Get (entry_list t) p in
      match cur with
      | Some e => Done (true, data e)
      | None => Fail Undefined
      end
  | None => Done (false, out_data)
  end.

(** The [while] loop of [Remove]: [Some p] when it left through [break]
    with the node [p] to unlink, [None] when its condition failed. *)
Fixpoint Remove_loop (fuel : nat) (l : tList entry) (bin : Z) (k : K)
    (list_it : pos) : outcome (option pos) :=
  match fuel with
  | O => Fail Undefined
  | S fuel' =>
      let* list_it := tListIterator.Next l list_it in
      let* cur := tListIterator.Get l list_it in
      match cur with
      | None => Done None
      | Some e =>
          if id e =? bin then
            if key_eqb (key e) k then Done (Some list_it)
            else Remove_loop fuel' l bin k list_it
          else Done None
      end
  end.

(** [Remove].  Its local [DATA_TYPE out_data;] has no initialiser: what
    the declaration leaves in it, [out_data] here, is the default-constructed
    value for a class type and indeterminate for [int] and pointer types,
    and it is what the method returns when no branch assigns it. *)
Definition Remove (t : table) (k : K) (out_data : V) : outcome (V * table) :=
  let* bin := HashKey t k in
  let* c := tArray.get (cell_array t) bin in
  match c with
  | None => Fail AssertFailed
  | Some list_it =>
      let* cur := tListIterator.Get (entry_list t) list_it in
      match cur with
      | None => Fail Undefined
      | Some e =>
          if key_eqb (key e) k then
            let out_data := data e in
            let* (_, l, list_it) := tListIterator.Remove (entry_list t) list_it in
            let* list_it := tListIterator.Next l list_it in
            let count := entry_count t - 1 in
            let* nxt := tListIterator.Get l list_it in
            let same_cell :=
              negb (tListIterator.AtRoot list_it)
              && match nxt with Some e' => id e' =? bin | None => false end in
            let* cells :=
              tArray.set (cell_array t) bin
                (if same_cell then Some list_it else None) in
            Done (out_data, mkTable count (table_size t) l cells)
          else
            let* hit := Remove_loop (length (entry_list t)) (entry_list t) bin k list_it in
            match hit with
            | Some p =>
                let* cur' := tListIterator.Get (entry_list t) p in
                match cur' with
                | None => Fail Undefined
                | Some e' =>
                    let* (_, l, _) := tListIterator.Remove (entry_list t) p in
                    Done (data e', mkTable (entry_count t - 1) (table_size t) l (cell_array t))
                end
            | None => Done (out_data, t)
            end
      end
  end.

(** The re-insertion loop of [SetTableSize]: [backup_list] is popped from
    its front, each entry gets its bin under the new size and is threaded
    into [entry_list] by the placement rule of [Add]. *)
Fixpoint SetTableSize_loop (size : Z) (backup_list l : tList entry)
    (cells : list (option pos)) : outcome (tList entry * list (option pos)) :=
  match backup_list with
  | [] => Done (l, cells)
  | (_, cur_entry) :: backup_list' =>
      let* bin := HashKey_at size (key cur_entry) in
      let cur_entry := mkEntry (key cur_entry) bin (data cur_entry) in
      let* c := tArray.get cells bin in
      let list_it := insert_point c in
      let* l := tList.Insert l list_it cur_entry in
      let* list_it := tListIterator.Prev l list_it in
      let* cells := tArray.set cells bin (Some list_it) in
      SetTableSize_loop size backup_list' l cells
  end.

Definition SetTableSize (t : table) (_hash : Z) : outcome table :=
  if _hash <? 0 then Fail Undefined
  else
    let cells := replicate (Z.to_nat _hash) None in
    let backup_list := entry_list t in
    let* (l, cells) := SetTableSize_loop _hash backup_list [] cells in
    Done (mkTable (entry_count t) _hash l cells).

(** The inner loop of [AsLists]: [key_it] walks the keys already placed
    while [cur_key] is greater, [value_it] follows one node ahead. *)
Fixpoint AsLists_scan (fuel : nat) (cur_key : K) (key_list : tList K)
    (value_list : tList V) (key_it value_it : pos) : outcome (pos * pos) :=
  match fuel with
  | O => Fail Undefined
  | S fuel' =>
      let* key_it := tListIterator.Next key_list key_it in
      let* placed := tListIterator.Get key_list key_it in
      match placed with
      | None => Done (key_it, value_it)
      | Some k' =>
          if key_gtb cur_key k' then
            let* value_it := tListIterator.Next value_list value_it in
            AsLists_scan fuel' cur_key key_list value_list key_it value_it
          else Done (key_it, value_it)
      end
  end.

Fixpoint AsLists_loop (fuel : nat) (l : tList entry) (list_it : pos)
    (key_list : tList K) (value_list : tList V) : outcome (tList K * tList V) :=
  match fuel with
  | O => Fail Undefined
  | S fuel' =>
      let* list_it := tListIterator.Next l list_it in
      let* cur := tListIterator.Get l list_it in
      match cur with
      | None => Done (key_list, value_list)
      | Some e =>
          let cur_key := key e in
          let cur_value := data e in
          let key_it := tListIterator.Reset in
          let value_it := tListIterator.Reset in
          let* value_it := tListIterator.Next value_list value_it in
          let* (key_it, value_it) :=
            AsLists_scan (S (length key_list)) cur_key key_list value_list
              key_it value_it in
          let* key_list := tList.Insert key_list key_it cur_key in
          let* value_list := tList.Insert value_list value_it cur_value in
          AsLists_loop fuel' l list_it key_list value_list
      end
  end.

(** [AsLists(key_list, value_list)]: the two lists as they are filled. *)
Definition AsLists (t : table) (key_list : tList K) (value_list : tList V)
    : outcome (tList K * tList V) :=
  if negb (tList.GetSize key_list =? 0) then Fail AssertFailed
  else if negb (tList.GetSize value_list =? 0) then Fail AssertFailed
  else AsLists_loop (S (length (entry_list t))) (entry_list t)
         tListIterator.Reset key_list value_list.

(** Sequences of mutating calls. *)
Inductive call : Type :=
| CallAdd (k : K) (d : V)
| CallSetValue (k : K) (d : V)
| CallRemove (k : K) (out_data : V)
| CallSetTableSize (size : Z).

Definition perform (t : table) (c : call) : outcome table :=
  match c with
  | CallAdd k d => Add t k d
  | CallSetValue k d => SetValue t k d
  | CallRemove k out_data => let* (_, t') := Remove t k out_data in Done t'
  | CallSetTableSize size => SetTableSize t size
  end.

Fixpoint perform_all (t : table) (cs : list call) : outcome table :=
  match cs with
  | [] => Done t
  | c :: cs' => let* t' := perform t c in perform_all t' cs'
  end.

(** A fresh table of [size] cells followed by the calls [cs]. *)
Definition session (size : Z) (cs : list call) : outcome table :=
  let* t := tHashTable_new size in perform_all t cs.
End Table.

Arguments call K V : clear implicits.

(** ** The three key kinds are instances of [HashType] *)

#[export] Program Instance HashType_int : HashType Z := {|
  key_eqb := Z.eqb;
  key_gtb := Z.gtb;
  hash := HashKey_int
|}.
Next Obligation. apply Z.eqb_eq. Qed.
Next Obligation. intros a. rewrite Z.gtb_ltb. apply Z.ltb_irrefl. Qed.
Next Obligation. intros a b c. rewrite !Z.gtb_ltb, !Z.ltb_lt. lia. Qed.
Next Obligation. intros a b. rewrite !Z.gtb_ltb, !Z.ltb_ge. lia. Qed.
Next Obligation.
  intros ts k Hts. unfold HashKey_int.
  pose proof (Z.rem_bound_abs k ts ltac:(lia)). lia.
Qed.

Definition voidp_eqb (p q : voidp) : bool := addr p =? addr q.
Definition voidp_gtb (p q : voidp) : bool := addr p >? addr q.

#[export] Program Instance HashType_voidp : HashType voidp := {|
  key_eqb := voidp_eqb;
  key_gtb := voidp_gtb;
  hash := HashKey_voidp
|}.
Next Obligation.
  intros [a] [b]. unfold voidp_eqb. simpl. rewrite Z.eqb_eq.
  split; [intros -> | intros [= ->]]; reflexivity.
Qed.
Next Obligation. intros a. unfold voidp_gtb. rewrite Z.gtb_ltb. apply Z.ltb_irrefl. Qed.
Next Obligation.
  intros a b c. unfold voidp_gtb. rewrite !Z.gtb_ltb, !Z.ltb_lt. lia.
Qed.
Next Obligation.
  intros [a] [b]. unfold voidp_gtb. simpl. rewrite !Z.gtb_ltb, !Z.ltb_ge.
  intros H1 H2. f_equal. lia.
Qed.
Next Obligation.
  intros ts k Hts. unfold HashKey_voidp.
  pose proof (Z.rem_bound_abs (Z.shiftr (to_int (addr k)) 2) ts ltac:(lia)). lia.
Qed.

#[export] Program Instance HashType_cString : HashType cString := {|
  key_eqb := cString_eqb;
  key_gtb := cString_gtb;
  hash := HashKey_cString
|}.
Next Obligation.
  intros a b. unfold cString_eqb.
  enough (Heq : cString_compare a b = Eq <-> a = b)
    by (rewrite <- Heq; destruct (cString_compare a b); split; congruence).
  revert b. induction a as [|c a IH]; intros [|d b]; simpl; try (split; congruence).
  destruct (Z.compare_spec (char_val c) (char_val d)) as [Hcd|Hcd|Hcd].
  - assert (c = d) as ->.
    { unfold char_val in Hcd.
      pose proof (N_ascii_bounded c). pose proof (N_ascii_bounded d).
      rewrite <- (ascii_N_embedding c), <- (ascii_N_embedding d). f_equal.
      destruct (Z.ltb_spec (Z.of_N (N_of_ascii c)) 128),
               (Z.ltb_spec (Z.of_N (N_of_ascii d)) 128); lia. }
    rewrite IH. split; congruence.
  - split; [discriminate | intros [= -> _]; lia].
  - split; [discriminate | intros [= -> _]; lia].
Qed.
Next Obligation.
  intros a. unfold cString_gtb.
  enough (Heq : cString_compare a a = Eq) by (rewrite Heq; reflexivity).
  induction a as [|c a IH]; simpl; [reflexivity|]. rewrite Z.compare_refl. exact IH.
Qed.
Next Obligation.
  intros a b c. unfold cString_gtb.
  enough (Htrans : cString_compare a b = Gt -> cString_compare b c = Gt ->
                   cString_compare a c = Gt).
  { destruct (cString_compare a b); try discriminate.
    destruct (cString_compare b c); try discriminate.
    rewrite Htrans; reflexivity. }
  revert b c. induction a as [|x a IH]; intros [|y b] [|z c]; simpl; try congruence.
  destruct (Z.compare_spec (char_val x) (char_val y)) as [Hxy|Hxy|Hxy];
    destruct (Z.compare_spec (char_val y) (char_val z)) as [Hyz|Hyz|Hyz];
    try discriminate; intros H1 H2.
  - rewrite Hxy, Hyz, Z.compare_refl. eauto.
  - assert (Hgt : char_val x > char_val z) by lia. rewrite Hgt. reflexivity.
  - assert (Hgt : char_val x > char_val z) by lia. rewrite Hgt. reflexivity.
  - assert (Hgt : char_val x > char_val z) by lia. rewrite Hgt. reflexivity.
Qed.
Next Obligation.
  intros a b. unfold cString_gtb. revert b.
  induction a as [|c a IH]; intros [|d b]; simpl; try congruence.
  destruct (Z.compare_spec (char_val c) (char_val d)) as [Hcd|Hcd|Hcd];
    destruct (Z.compare_spec (char_val d) (char_val c)) as [Hdc|Hdc|Hdc];
    try lia; try discriminate.
  intros H1 H2. rewrite (IH b H1 H2). f_equal.
  unfold char_val in Hcd.
  pose proof (N_ascii_bounded c). pose proof (N_ascii_bounded d).
  rewrite <- (ascii_N_embedding c), <- (ascii_N_embedding d). f_equal.
  destruct (Z.ltb_spec (Z.of_N (N_of_ascii c)) 128),
           (Z.ltb_spec (Z.of_N (N_of_ascii d)) 128); lia.
Qed.
Next Obligation.
  intros ts k Hts. unfold HashKey_cString. apply Z.mod_pos_bound, Hts.
Qed.

(** ** The dictionary [tDictionary] *)

Record tDictionary (T : Type) : Type := mkDictionary {
  m_hash : tHashTable cString T
}.

Arguments mkDictionary {T} m_hash.
Arguments m_hash {T} _.

(** Modelled from the spec: [cString::Pop(delim)] of the absent
    [cString.h]; the string is split at the first occurrence of [delim]
    into the part before it, which is returned, and the remainder, which
    stays in the string (the whole string and an empty remainder when
    [delim] does not occur). *)
Fixpoint cString_Pop (s : cString) (delim : ascii) : cString * cString :=
  match s with
  | EmptyString => (EmptyString, EmptyString)
  | String c s' =>
      if Ascii.eqb c delim then (EmptyString, s')
      else let (front, rest) := cString_Pop s' delim in (String c front, rest)
  end.

(** Modelled from the spec: [cStringUtil::EditDistance] of the absent
    [cStringUtil.h], the Levenshtein distance of two strings; the inner
    [lev_row t] is the distance from [s] to [t]. *)
Fixpoint levenshtein (s : cString) : cString -> Z :=
  match s with
  | EmptyString => cString_size
  | String a s' =>
      fix lev_row (t : cString) : Z :=
        match t with
        | EmptyString => cString_size s
        | String b t' =>
            if Ascii.eqb a b then levenshtein s' t'
            else 1 + Z.min (levenshtein s' t') (Z.min (levenshtein s' t) (lev_row t'))
        end
  end.

Section Dictionary.
Context {T : Type} `{Inhabited T}.

(** The two functions of the absent [cStringUtil.h] the dictionary
    calls, as parameters.  [Convert] is taken as the specification words
    it: it yields [None] when the text is not a value of the dictionary's
    kind. *)
Variable EditDistance : cString -> cString -> Z.
Variable Convert : cString -> option T.

Definition tDictionary_SetValue (d : tDictionary T) (name : cString) (data : T)
    : outcome (tDictionary T) :=
  let* h := SetValue (m_hash d) name data in Done (mkDictionary h).

Definition tDictionary_AsLists (d : tDictionary T) (name_list : tList cString)
    (value_list : tList T) : outcome (tList cString * tList T) :=
  AsLists (m_hash d) name_list value_list.

(** [Load(load_string, assign)]: a conversion that fails is passed on to
    the caller, [Load] has no handler for it. *)
Definition Load (d : tDictionary T) (load_string : cString) (assign : ascii)
    : outcome (tDictionary T) :=
  let (key, load_string) := cString_Pop load_string assign in
  match Convert load_string with
  | None => Fail ConversionFailed
  | Some value => tDictionary_SetValue d key value
  end.

(** The loop of [NearMatch] over the sorted keys. *)
Fixpoint NearMatch_loop (fuel : nat) (keys : tList cString) (name : cString)
    (list_it : pos) (best_match : cString) (best_dist : Z) : outcome cString :=
  match fuel with
  | O => Fail Undefined
  | S fuel' =>
      let* list_it := tListIterator.Next keys list_it in
      let* cur := tListIterator.Get keys list_it in
      match cur with
      | None => Done best_match
      | Some k =>
          let dist := EditDistance name k in
          if dist <? best_dist then NearMatch_loop fuel' keys name list_it k dist
          else NearMatch_loop fuel' keys name list_it best_match best_dist
      end
  end.

Definition NearMatch (d : tDictionary T) (name : cString) : outcome cString :=
  let* (keys, values) := tDictionary_AsLists d [] [] in
  let best_match := EmptyString in
  let best_dist := cString_size name in
  NearMatch_loop (S (length keys)) keys name tListIterator.Reset best_match best_dist.

End Dictionary.

(** ** The vocabulary of the specification *)

Section Table_vocabulary.
Context {K V : Type} `{HashType K} `{Inhabited V}.
Implicit Types (l s : tList (tHashEntry K V)) (t : tHashTable K V) (b bin : Z).
Implicit Types (out : list (K * V)).

(** The cached bucket ids along the entry list. *)
Definition ids l : list Z := (fun n => id n.2) <$> l.

(** The first node of the entry list whose entry belongs to bucket [b]. *)
Fixpoint head_of (b : Z) l : option pos :=
  match l with
  | [] => None
  | (a, e) :: r => if id e =? b then Some (At a) else head_of b r
  end.

(** Grouping, in the form the proofs use: an id that occurs again later
    occurs again at once. *)
Fixpoint runs_ok (js : list Z) : Prop :=
  match js with
  | [] => True
  | j :: r => (j ∈ r -> head r = Some j) /\ runs_ok r
  end.

(** Grouping, as the data model states it: whatever lies between two
    entries of one bucket belongs to that bucket. *)
Definition grouped (js : list Z) : Prop :=
  forall (i j k : nat) (x y : Z),
    (i <= j <= k)%nat ->
    js !! i = Some x -> js !! k = Some x -> js !! j = Some y -> y = x.

(** What a scan of the run of [bin] finds in the nodes [s] ahead of it. *)
Fixpoint scan_run (bin : Z) (k : K) s : option pos :=
  match s with
  | [] => None
  | (a, e) :: r =>
      if id e =? bin then
        if key_eqb (key e) k then Some (At a) else scan_run bin k r
      else None
  end.

(** The nodes from the head of the run of [b] to the end of the list. *)
Fixpoint run_from (b : Z) l : tList (tHashEntry K V) :=
  match l with
  | [] => []
  | (a, e) :: r => if id e =? b then l else run_from b r
  end.

(** The entry list once the node [n] is placed for bucket [b]: before the
    head of the run of [b], at the tail when there is no such run. *)
Fixpoint place_before (b : Z) (n : ptr * tHashEntry K V) l : tList (tHashEntry K V) :=
  match l with
  | [] => [n]
  | (a, e) :: r => if id e =? b then n :: l else (a, e) :: place_before b n r
  end.

(** Entry list and cell array fit together under a table size. *)
Record lists_ok (size : Z) l (cells : list (option pos)) : Prop := {
  ok_size : size = Z.of_nat (length cells);
  ok_nodup : NoDup l.*1;
  ok_cells : forall b : nat, (b < length cells)%nat ->
             cells !! b = Some (head_of (Z.of_nat b) l);
  ok_runs : runs_ok (ids l);
  ok_hash : Forall (fun n => id n.2 = hash size (key n.2)) l
}.

Definition table_ok t : Prop :=
  entry_count t = Z.of_nat (length (entry_list t))
  /\ lists_ok (table_size t) (entry_list t) (cell_array t).

(** The key/value pairs held by a list of entry nodes. *)
Definition pairs_of l : list (K * V) := (fun n => (key n.2, data n.2)) <$> l.

(** The table [Add] builds. *)
Definition Add_result t (k : K) (d : V) : tHashTable K V :=
  let bin := hash (table_size t) k in
  let p := tList.fresh_ptr (entry_list t) in
  mkTable (entry_count t + 1) (table_size t)
    (place_before bin (p, mkEntry k bin d) (entry_list t))
    (<[Z.to_nat bin := Some (At p)]> (cell_array t)).

(** The nodes ahead of the run of [b]. *)
Fixpoint before_run (b : Z) l : tList (tHashEntry K V) :=
  match l with
  | [] => []
  | (a, e) :: r => if id e =? b then [] else (a, e) :: before_run b r
  end.

(** A node of the run of [bin] that a scan for [k] passes over. *)
Definition passed (bin : Z) (k : K) (n : ptr * tHashEntry K V) : Prop :=
  id n.2 = bin /\ key_eqb (key n.2) k = false.

(** The run [s] with the first entry of key [k] unlinked, and its data. *)
Fixpoint unlink (bin : Z) (k : K) s : option (V * tList (tHashEntry K V)) :=
  match s with
  | [] => None
  | (a, e) :: r =>
      if id e =? bin then
        if key_eqb (key e) k then Some (data e, r)
        else match unlink bin k r with
             | Some (d, r') => Some (d, (a, e) :: r')
             | None => None
             end
      else None
  end.

(** The run [s] with the data of the first entry of key [k] overwritten. *)
Fixpoint assign (bin : Z) (k : K) (d : V) s : tList (tHashEntry K V) :=
  match s with
  | [] => []
  | (a, e) :: r =>
      if id e =? bin then
        if key_eqb (key e) k then (a, mkEntry (key e) (id e) d) :: r
        else (a, e) :: assign bin k d r
      else s
  end.

(** What [Remove] does, read off the entry list. *)
Definition Remove_outcome t (k : K) (out_data : V) : outcome (V * tHashTable K V) :=
  let bin := hash (table_size t) k in
  let l1 := before_run bin (entry_list t) in
  match run_from bin (entry_list t) with
  | [] => Fail AssertFailed
  | s =>
      match unlink bin k s with
      | None => Done (out_data, t)
      | Some (d, s') =>
          Done (d, mkTable (entry_count t - 1) (table_size t) (l1 ++ s')
                     (<[Z.to_nat bin := head_of bin (l1 ++ s')]> (cell_array t)))
      end
  end.

(** What [SetValue] does, read off the entry list. *)
Definition SetValue_outcome t (k : K) (d : V) : outcome (tHashTable K V) :=
  let bin := hash (table_size t) k in
  match scan_run bin k (run_from bin (entry_list t)) with
  | None => Add t k d
  | Some _ =>
      Done (mkTable (entry_count t) (table_size t)
              (before_run bin (entry_list t) ++ assign bin k d (run_from bin (entry_list t)))
              (cell_array t))
  end.

(** Calls whose arguments the code accepts: a table size of at least 1. *)
Definition valid_call (c : call K V) : Prop :=
  match c with
  | CallSetTableSize size => 0 < size
  | _ => True
  end.

(** A call either completes or stops on the assertion of [Remove]. *)
Definition completes_or_asserts {A : Type} (o : outcome A) : Prop :=
  (exists a, o = Done a) \/ o = Fail AssertFailed.

(** The data a scan of the run [s] finds for the key [k]. *)
Fixpoint run_lookup (bin : Z) (k : K) s : option V :=
  match s with
  | [] => None
  | (a, e) :: r =>
      if id e =? bin then
        if key_eqb (key e) k then Some (data e) else run_lookup bin k r
      else None
  end.

(** Ascending order of keys: [a] is not greater than [b]. *)
Definition key_le (a b : K) : Prop := key_gtb a b = false.

(** The place [AsLists] gives a pair in the output built so far: after
    the keys it is greater than, before the first key it is not. *)
Fixpoint sorted_insert (k : K) (v : V) out : list (K * V) :=
  match out with
  | [] => [(k, v)]
  | (k', v') :: r =>
      if key_gtb k k' then (k', v') :: sorted_insert k v r else (k, v) :: out
  end.

(** The output of [AsLists] for an entry list, pair by pair. *)
Definition snapshot l : list (K * V) :=
  fold_left (fun out n => sorted_insert (key n.2) (data n.2) out) l [].

End Table_vocabulary.

Section Dictionary_vocabulary.
Context {T : Type}.
Variable EditDistance : cString -> cString -> Z.

(** The best match among the keys [ks] still to visit. *)
Fixpoint nearest (name : cString) (ks : list cString) (best_match : cString)
    (best_dist : Z) : cString :=
  match ks with
  | [] => best_match
  | k :: ks' =>
      if EditDistance name k <? best_dist then nearest name ks' k (EditDistance name k)
      else nearest name ks' best_match best_dist
  end.

(** The keys a dictionary stores. *)
Definition stored_keys (d : tDictionary T) : list cString :=
  (fun n => key n.2) <$> entry_list (m_hash d).

(** [c] does not occur in [s]. *)
Fixpoint lacks (c : ascii) (s : cString) : Prop :=
  match s with
  | EmptyString => True
  | String c' s' => c' <> c /\ lacks c s'
  end.

End Dictionary_vocabulary.

(** Concrete tables the theorems are run on below. *)

(** An [int]-keyed table of three cells after a few calls. *)
Definition demo_calls : list (call Z Z) :=
  [CallAdd 1 10; CallAdd 4 40; CallSetValue 1 11; CallAdd 2 20; CallAdd 7 70;
   CallRemove 4 0; CallSetTableSize 3].

Definition demo_table : tHashTable Z Z :=
  Eval vm_compute in
    match session 3 demo_calls with
    | Done t => t
    | Fail _ => mkTable 0 0 [] []
    end.

(** A dictionary holding ["bat"] and ["cats"]. *)
Definition demo_words : list (call cString Z) :=
  [CallAdd "cats"%string 2; CallAdd "bat"%string 1].

Definition demo_dictionary : tDictionary Z :=
  Eval vm_compute in
    match session HASH_TABLE_SIZE_DEFAULT demo_words with
    | Done t => mkDictionary t
    | Fail _ => mkDictionary (mkTable 0 0 [] [])
    end.

(** A conversion to [int] that knows one numeral. *)
Definition demo_Convert (s : cString) : option Z :=
  if cString_eqb s "42"%string then Some 42 else None.

(** ** The remaining methods of the table *)

(** Modelled from the spec: [tArray::SetAll(value)] of the absent
    [tArray.h] stores [value] in every slot. *)
Definition tArray_SetAll {X : Type} (a : list X) (x : X) : list X :=
  (fun _ => x) <$> a.

(** Modelled from the spec: [tArray::Resize(new_size)] of the absent
    [tArray.h]; the slots kept hold what they held, the slots gained are
    default-constructed, and a negative size is no size. *)
Definition tArray_Resize {X : Type} `{Inhabited X} (a : list X) (new_size : Z)
    : outcome (list X) :=
  if new_size <? 0 then Fail Undefined
  else Done (take (Z.to_nat new_size) (a ++ replicate (Z.to_nat new_size) inhabitant)).

Section Table_rest.
Context {K V : Type} `{HashType K} `{Inhabited V}.

(** The loop of [ClearAll]: [Remove] leaves the iterator on the node
    before the one it unlinked, so [Next] reaches the new first node. *)
Fixpoint ClearAll_loop (fuel : nat) (l : tList (tHashEntry K V)) (list_it : pos)
    : outcome (tList (tHashEntry K V)) :=
  match fuel with
  | O => Fail Undefined
  | S fuel' =>
      let* list_it := tListIterator.Next l list_it in
      let* cur := tListIterator.Get l list_it in
      match cur with
      | None => Done l
      | Some _ =>
          let* (_, l, list_it) := tListIterator.Remove l list_it in
          ClearAll_loop fuel' l list_it
      end
  end.

Definition ClearAll (t : tHashTable K V) : outcome (tHashTable K V) :=
  let* l := ClearAll_loop (S (length (entry_list t))) (entry_list t)
              tListIterator.Reset in
  Done (mkTable 0 (table_size t) l (tArray_SetAll (cell_array t) None)).

(** The loop of [GetValues(tArray<DATA_TYPE>&)]: [value_array[idx++] = data]. *)
Fixpoint GetValues_loop (fuel : nat) (l : tList (tHashEntry K V)) (list_it : pos)
    (value_array : list V) (idx : Z) : outcome (list V) :=
  match fuel with
  | O => Fail Undefined
  | S fuel' =>
      let* list_it := tListIterator.Next l list_it in
      let* cur := tListIterator.Get l list_it in
      match cur with
      | None => Done value_array
      | Some e =>
          let* value_array := tArray.set value_array idx (data e) in
          GetValues_loop fuel' l list_it value_array (idx + 1)
      end
  end.

Definition GetValues (t : tHashTable K V) (value_array : list V) : outcome (list V) :=
  let* value_array := tArray_Resize value_array (entry_count t) in
  GetValues_loop (S (length (entry_list t))) (entry_list t) tListIterator.Reset
    value_array 0.

(** The data of the first entry of the whole entry list whose key is [k]. *)
Fixpoint first_with (k : K) (l : tList (tHashEntry K V)) : option V :=
  match l with
  | [] => None
  | (a, e) :: r => if key_eqb (key e) k then Some (data e) else first_with k r
  end.

(** The number of entries of the entry list whose key is [k]. *)
Fixpoint count_key (k : K) (l : tList (tHashEntry K V)) : nat :=
  match l with
  | [] => O
  | (a, e) :: r => if key_eqb (key e) k then S (count_key k r) else count_key k r
  end.
End Table_rest.

(** The characters of a string, and the sum [HashKey] forms of them
    before it wraps to [unsigned int]. *)
Definition chars_of (s : cString) : list ascii := list_ascii_of_string s.

Definition chars_total (cs : list ascii) : Z :=
  foldr (fun c acc => to_unsigned (char_val c) + acc) 0 cs.

(** ** The bounded printer of [tcmalloc-logging.cc] *)

(** The two members [printf] works on: [buf_], the write position, as an
    offset into the caller's buffer, and [left_], the bytes left of it. *)
Record TCMalloc_Printer : Type := mkPrinter {
  buf_ : Z;
  left_ : Z
}.

(** [TCMalloc_Printer::printf]; [r] is what [vsnprintf(buf_, left_, ...)]
    returned, which the method calls only while [left_ > 0]. *)
Definition TCMalloc_Printer_printf (p : TCMalloc_Printer) (r : Z) : TCMalloc_Printer :=
  if 0 <? left_ p then
    if r <? 0 then mkPrinter (buf_ p) 0
    else if left_ p <? r then mkPrinter (buf_ p) 0
    else mkPrinter (buf_ p + r) (left_ p - r)
  else p.

(** A sequence of calls, given what [vsnprintf] returns in each. *)
Definition TCMalloc_Printer_run (p : TCMalloc_Printer) (rs : list Z) : TCMalloc_Printer :=
  fold_left TCMalloc_Printer_printf rs p.

(** ** Facts about the list and its iterator *)

Section tList_facts.
Context {T : Type}.
Implicit Types (l : tList T) (a : ptr) (x : T).

Lemma split_at_Some a l l1 x l2 :
  tList.split_at a l = Some (l1, x, l2) -> l = l1 ++ (a, x) :: l2 /\ a ∉ l1.*1.
Proof.
  revert l1. induction l as [|[b y] r IH]; intros l1; simpl; [discriminate|].
  destruct (Nat.eqb_spec a b) as [->|Hne].
  - intros [= <- <- <-]. split; [reflexivity | apply not_elem_of_nil].
  - destruct (tList.split_at a r) as [[[m1 z] m2]|] eqn:Hr; [|discriminate].
    intros [= <- <- <-]. destruct (IH m1 eq_refl) as [-> Hnot].
    split; [reflexivity|]. simpl. rewrite not_elem_of_cons. auto.
Qed.

Lemma split_at_app a l1 x l2 :
  a ∉ l1.*1 -> tList.split_at a (l1 ++ (a, x) :: l2) = Some (l1, x, l2).
Proof.
  induction l1 as [|[b y] r IH]; simpl; intros Hnot.
  - rewrite Nat.eqb_refl. reflexivity.
  - apply not_elem_of_cons in Hnot as [Hne Hnot].
    destruct (Nat.eqb_spec a b) as [->|_]; [congruence|].
    rewrite (IH Hnot). reflexivity.
Qed.

Lemma split_at_None a l : tList.split_at a l = None -> a ∉ l.*1.
Proof.
  induction l as [|[b y] r IH]; simpl; intros Hs; [apply not_elem_of_nil|].
  destruct (Nat.eqb_spec a b) as [->|Hne]; [discriminate|].
  destruct (tList.split_at a r) as [[[m1 z] m2]|]; [discriminate|].
  rewrite not_elem_of_cons. auto.
Qed.

Lemma foldr_max_ge (ps : list ptr) a : a ∈ ps -> (a <= foldr Nat.max O ps)%nat.
Proof.
  induction ps as [|b ps IH]; simpl; intros Hin.
  - apply elem_of_nil in Hin as [].
  - apply elem_of_cons in Hin as [->|Hin]; [lia|]. specialize (IH Hin). lia.
Qed.

Lemma fresh_ptr_fresh l : tList.fresh_ptr l ∉ l.*1.
Proof.
  unfold tList.fresh_ptr. intros Hin. apply foldr_max_ge in Hin. lia.
Qed.

Lemma last_pos_snoc l a x : tList.last_pos (l ++ [(a, x)]) = At a.
Proof. unfold tList.last_pos. rewrite rev_app_distr. reflexivity. Qed.

Lemma last_pos_nil : tList.last_pos (@nil (ptr * T)) = Root.
Proof. reflexivity. Qed.

Lemma NoDup_mid a x l1 l2 :
  NoDup (l1 ++ (a, x) :: l2).*1 -> (a ∉ l1.*1) /\ (a ∉ l2.*1) /\ NoDup (l1 ++ l2).*1.
Proof.
  rewrite !fmap_app, fmap_cons. simpl. intros Hnd.
  apply NoDup_app in Hnd as (Hn1 & Hdisj & Hn2).
  apply NoDup_cons in Hn2 as [Ha2 Hn2].
  split; [|split]; [| exact Ha2 |].
  - intros Hin. apply (Hdisj a Hin). left.
  - apply NoDup_app. split; [exact Hn1|]. split; [|exact Hn2].
    intros b Hb1 Hb2. apply (Hdisj b Hb1). right. exact Hb2.
Qed.

Lemma NoDup_insert a x l1 l2 :
  a ∉ (l1 ++ l2).*1 -> NoDup (l1 ++ l2).*1 -> NoDup (l1 ++ (a, x) :: l2).*1.
Proof.
  rewrite !fmap_app, fmap_cons. simpl. intros Ha Hnd.
  apply not_elem_of_app in Ha as [Ha1 Ha2].
  apply NoDup_app in Hnd as (Hn1 & Hdisj & Hn2).
  apply NoDup_app. split; [exact Hn1|]. split.
  - intros b Hb1 Hb2. apply elem_of_cons in Hb2 as [->|Hb2]; [auto|].
    exact (Hdisj b Hb1 Hb2).
  - apply NoDup_cons. auto.
Qed.

(** An iterator standing at the head of the suffix [l2] of [l1 ++ l2]. *)
Lemma Get_first l1 l2 :
  NoDup (l1 ++ l2).*1 ->
  tListIterator.Get (l1 ++ l2) (tList.first_pos l2) = Done (head (l2.*2)).
Proof.
  destruct l2 as [|[a x] l2]; simpl; [reflexivity|]. intros Hnd.
  apply NoDup_mid in Hnd as (Ha1 & _ & _). rewrite (split_at_app _ _ _ _ Ha1).
  reflexivity.
Qed.

Lemma Next_first l1 a x l2 :
  NoDup (l1 ++ (a, x) :: l2).*1 ->
  tListIterator.Next (l1 ++ (a, x) :: l2) (At a) = Done (tList.first_pos l2).
Proof.
  intros Hnd. apply NoDup_mid in Hnd as (Ha1 & _ & _). simpl.
  rewrite (split_at_app _ _ _ _ Ha1). reflexivity.
Qed.

Lemma Next_last l1 l2 :
  NoDup (l1 ++ l2).*1 ->
  tListIterator.Next (l1 ++ l2) (tList.last_pos l1) = Done (tList.first_pos l2).
Proof.
  destruct l1 as [|n l1 _] using rev_ind; [reflexivity|].
  destruct n as [a x]. rewrite last_pos_snoc, <- app_assoc. simpl.
  apply Next_first.
Qed.

Lemma Prev_at l1 a x l2 :
  NoDup (l1 ++ (a, x) :: l2).*1 ->
  tListIterator.Prev (l1 ++ (a, x) :: l2) (At a) = Done (tList.last_pos l1).
Proof.
  intros Hnd. apply NoDup_mid in Hnd as (Ha1 & _ & _). simpl.
  rewrite (split_at_app _ _ _ _ Ha1). reflexivity.
Qed.

Lemma Insert_at l1 a x l2 y :
  NoDup (l1 ++ (a, x) :: l2).*1 ->
  tList.Insert (l1 ++ (a, x) :: l2) (At a) y
  = Done (l1 ++ (tList.fresh_ptr (l1 ++ (a, x) :: l2), y) :: (a, x) :: l2).
Proof.
  intros Hnd. apply NoDup_mid in Hnd as (Ha1 & _ & _). simpl.
  rewrite (split_at_app _ _ _ _ Ha1). reflexivity.
Qed.

Lemma Remove_at l1 a x l2 :
  NoDup (l1 ++ (a, x) :: l2).*1 ->
  tListIterator.Remove (l1 ++ (a, x) :: l2) (At a)
  = Done (Some x, l1 ++ l2, tList.last_pos l1).
Proof.
  intros Hnd. apply NoDup_mid in Hnd as (Ha1 & _ & _). simpl.
  rewrite (split_at_app _ _ _ _ Ha1). reflexivity.
Qed.

Lemma Store_at l1 a x l2 y :
  NoDup (l1 ++ (a, x) :: l2).*1 ->
  tListIterator.Store (l1 ++ (a, x) :: l2) (At a) y = Done (l1 ++ (a, y) :: l2).
Proof.
  intros Hnd. apply NoDup_mid in Hnd as (Ha1 & _ & _). simpl.
  rewrite (split_at_app _ _ _ _ Ha1). reflexivity.
Qed.

Lemma Get_at l1 a x l2 :
  NoDup (l1 ++ (a, x) :: l2).*1 ->
  tListIterator.Get (l1 ++ (a, x) :: l2) (At a) = Done (Some x).
Proof. intros Hnd. exact (Get_first l1 ((a, x) :: l2) Hnd). Qed.
End tList_facts.

(** ** The representation invariant is kept by every method *)

Section Table_facts.
Context {K V : Type} `{HashType K} `{Inhabited V}.
Implicit Types (l s m : tList (tHashEntry K V)) (e w y : tHashEntry K V).
Implicit Types (t : tHashTable K V) (b bin : Z) (c : call K V) (cs : list (call K V)).

Lemma ids_app l1 l2 : ids (l1 ++ l2) = ids l1 ++ ids l2.
Proof. unfold ids. apply fmap_app. Qed.

Lemma head_of_app b l1 l2 :
  head_of b (l1 ++ l2)
  = match head_of b l1 with Some p => Some p | None => head_of b l2 end.
Proof.
  induction l1 as [|[a e] r IH]; simpl; [reflexivity|].
  destruct (id e =? b); [reflexivity | exact IH].
Qed.

Lemma head_of_None b l : head_of b l = None <-> b ∉ ids l.
Proof.
  induction l as [|[a e] r IH]; simpl.
  - split; [intros _; apply not_elem_of_nil | reflexivity].
  - rewrite not_elem_of_cons. simpl. destruct (Z.eqb_spec (id e) b) as [Heq|Hne].
    + split; [discriminate | intros [Hb _]; congruence].
    + rewrite IH. split; [intros Hb; split; [congruence | exact Hb] | intros [_ Hb]; exact Hb].
Qed.

Lemma head_of_Some b l p :
  head_of b l = Some p ->
  exists l1 a e l2, p = At a /\ l = l1 ++ (a, e) :: l2 /\ id e = b /\ b ∉ ids l1.
Proof.
  induction l as [|[a e] r IH]; simpl; [discriminate|].
  destruct (Z.eqb_spec (id e) b) as [Heq|Hne].
  - intros [= <-]. exists [], a, e, r. repeat split; [exact Heq | apply not_elem_of_nil].
  - intros Hr. destruct (IH Hr) as (l1 & a' & e' & l2 & -> & -> & Hid & Hnot).
    exists ((a, e) :: l1), a', e', l2. repeat split; [exact Hid|].
    simpl. rewrite not_elem_of_cons. split; [congruence | exact Hnot].
Qed.

Lemma head_of_skip b l1 a e l2 :
  id e <> b -> head_of b (l1 ++ (a, e) :: l2) = head_of b (l1 ++ l2).
Proof.
  intros Hne. rewrite !head_of_app. simpl.
  destruct (Z.eqb_spec (id e) b); [congruence | reflexivity].
Qed.

Lemma runs_ok_app_r js1 js2 : runs_ok (js1 ++ js2) -> runs_ok js2.
Proof. induction js1 as [|j r IH]; simpl; [auto | intros [_ Hr]; auto]. Qed.

Lemma runs_ok_delete js1 x js2 : runs_ok (js1 ++ x :: js2) -> runs_ok (js1 ++ js2).
Proof.
  induction js1 as [|j r IH]; simpl; [intros [_ Hr]; exact Hr|].
  intros [Hj Hr]. split; [|auto]. intros Hin.
  assert (Hin' : j ∈ r ++ x :: js2).
  { apply elem_of_app in Hin as [Hin|Hin]; apply elem_of_app; [left; exact Hin|].
    right. right. exact Hin. }
  specialize (Hj Hin'). destruct r as [|j' r']; simpl in *; [|exact Hj].
  injection Hj as ->. destruct Hr as [Hx _]. apply Hx. exact Hin.
Qed.

Lemma runs_ok_snoc js b : runs_ok js -> b ∉ js -> runs_ok (js ++ [b]).
Proof.
  induction js as [|j r IH]; simpl; intros Hr Hb.
  - split; [intros Hin; apply elem_of_nil in Hin as [] | exact I].
  - apply not_elem_of_cons in Hb as [Hne Hb]. destruct Hr as [Hj Hr].
    split; [|auto]. intros Hin. apply elem_of_app in Hin as [Hin|Hin].
    + specialize (Hj Hin). destruct r; simpl in *; [discriminate | exact Hj].
    + apply list_elem_of_singleton in Hin. congruence.
Qed.

Lemma runs_ok_dup js1 b js2 :
  runs_ok (js1 ++ b :: js2) -> b ∉ js1 -> runs_ok (js1 ++ b :: b :: js2).
Proof.
  induction js1 as [|j r IH]; simpl; intros Hr Hb.
  - split; [reflexivity | exact Hr].
  - apply not_elem_of_cons in Hb as [Hne Hb]. destruct Hr as [Hj Hr].
    split; [|auto]. intros Hin.
    assert (Hin' : j ∈ r ++ b :: js2).
    { apply elem_of_app in Hin as [Hin|Hin]; apply elem_of_app; [left; exact Hin|].
      right. apply elem_of_cons in Hin as [->|Hin]; [congruence | exact Hin]. }
    specialize (Hj Hin'). destruct r; simpl in *; [congruence | exact Hj].
Qed.

Lemma runs_ok_grouped js : runs_ok js -> grouped js.
Proof.
  induction js as [|j0 r IH]; intros Hr i j k x y Hijk Hi Hk Hj.
  - rewrite lookup_nil in Hi. discriminate.
  - destruct Hr as [Hhd Hr]. specialize (IH Hr).
    destruct i as [|i].
    + simpl in Hi. injection Hi as ->.
      destruct j as [|j]; [simpl in Hj; congruence|].
      destruct k as [|k]; [lia|]. simpl in Hj, Hk.
      assert (Hin : x ∈ r) by (apply list_elem_of_lookup; eauto).
      specialize (Hhd Hin). destruct r as [|x' r']; [discriminate|].
      simpl in Hhd. injection Hhd as ->.
      apply (IH O j k x y); [lia | reflexivity | exact Hk | exact Hj].
    + destruct j as [|j]; [lia|]. destruct k as [|k]; [lia|].
      simpl in Hi, Hj, Hk. apply (IH i j k x y); [lia | auto..].
Qed.

Lemma grouped_runs_ok js : grouped js -> runs_ok js.
Proof.
  induction js as [|j0 r IH]; intros Hg; simpl; [exact I|]. split.
  - intros Hin. apply list_elem_of_lookup in Hin as [k Hk].
    destruct r as [|y r']; [rewrite lookup_nil in Hk; discriminate|].
    simpl. f_equal. apply (Hg O 1%nat (S k) j0 y); [lia | reflexivity | exact Hk | reflexivity].
  - apply IH. intros i j k x y Hijk Hi Hk Hj.
    apply (Hg (S i) (S j) (S k) x y); [lia | auto..].
Qed.

Lemma FindEntry_loop_scan fuel l1 l2 bin k :
  NoDup (l1 ++ l2).*1 -> (length l2 < fuel)%nat ->
  FindEntry_loop fuel (l1 ++ l2) bin k (tList.first_pos l2) = Done (scan_run bin k l2).
Proof.
  revert fuel l1. induction l2 as [|[a e] r IH]; intros fuel l1 Hnd Hfuel;
    (destruct fuel as [|fuel]; [simpl in Hfuel; lia|]).
  - reflexivity.
  - cbn [FindEntry_loop]. rewrite (Get_first l1 ((a, e) :: r) Hnd).
    cbn [bind fmap list_fmap head snd scan_run tList.first_pos].
    destruct (id e =? bin); [|reflexivity].
    destruct (key_eqb (key e) k); [reflexivity|].
    rewrite (Next_first l1 a e r Hnd). cbn [bind].
    replace (l1 ++ (a, e) :: r) with ((l1 ++ [(a, e)]) ++ r) in *
      by (rewrite <- app_assoc; reflexivity).
    apply IH; [exact Hnd | simpl in Hfuel; lia].
Qed.

Lemma Remove_loop_scan fuel l1 a e l2 bin k :
  NoDup (l1 ++ (a, e) :: l2).*1 -> (length l2 < fuel)%nat ->
  Remove_loop fuel (l1 ++ (a, e) :: l2) bin k (At a) = Done (scan_run bin k l2).
Proof.
  revert fuel l1 a e. induction l2 as [|[a' e'] r IH]; intros fuel l1 a e Hnd Hfuel;
    (destruct fuel as [|fuel]; [simpl in Hfuel; lia|]);
    cbn [Remove_loop]; rewrite (Next_first l1 a e _ Hnd);
    cbn [bind tList.first_pos].
  - reflexivity.
  - replace (l1 ++ (a, e) :: (a', e') :: r) with ((l1 ++ [(a, e)]) ++ (a', e') :: r) in *
      by (rewrite <- app_assoc; reflexivity).
    rewrite (Get_at _ a' e' r Hnd). cbn [bind scan_run].
    destruct (id e' =? bin); [|reflexivity].
    destruct (key_eqb (key e') k); [reflexivity|].
    apply IH; [exact Hnd | simpl in Hfuel; lia].
Qed.

Lemma In_Get {T : Type} (l : tList T) a x :
  NoDup l.*1 -> (a, x) ∈ l -> tListIterator.Get l (At a) = Done (Some x).
Proof.
  intros Hnd Hin. apply list_elem_of_split in Hin as (l1 & l2 & ->).
  apply Get_at, Hnd.
Qed.

Lemma place_before_absent b n l : b ∉ ids l -> place_before b n l = l ++ [n].
Proof.
  induction l as [|[a e] r IH]; simpl; intros Hb; [reflexivity|].
  apply not_elem_of_cons in Hb as [Hne Hb]. simpl in Hne.
  destruct (Z.eqb_spec (id e) b); [congruence|]. rewrite (IH Hb). reflexivity.
Qed.

Lemma place_before_head b n l1 a e l2 :
  b ∉ ids l1 -> id e = b ->
  place_before b n (l1 ++ (a, e) :: l2) = l1 ++ n :: (a, e) :: l2.
Proof.
  intros Hb He. induction l1 as [|[a' e'] r IH]; simpl.
  - destruct (Z.eqb_spec (id e) b); [reflexivity | congruence].
  - apply not_elem_of_cons in Hb as [Hne Hb]. simpl in Hne.
    destruct (Z.eqb_spec (id e') b); [congruence|]. rewrite (IH Hb). reflexivity.
Qed.

Lemma place_before_perm b n l : place_before b n l ≡ₚ n :: l.
Proof.
  induction l as [|[a e] r IH]; simpl; [reflexivity|].
  destruct (id e =? b); [reflexivity|]. rewrite IH. apply Permutation_swap.
Qed.

Lemma head_of_place b b' p e l :
  id e = b ->
  head_of b' (place_before b (p, e) l) = if b =? b' then Some (At p) else head_of b' l.
Proof.
  intros He. induction l as [|[a y] r IH]; simpl.
  - rewrite He. reflexivity.
  - destruct (Z.eqb_spec (id y) b) as [Hy|Hy]; simpl.
    + rewrite He. destruct (Z.eqb_spec b b') as [Hbb|Hbb]; [reflexivity|].
      destruct (Z.eqb_spec (id y) b'); [congruence | reflexivity].
    + destruct (Z.eqb_spec (id y) b') as [Hy'|Hy']; [|exact IH].
      destruct (Z.eqb_spec b b'); [congruence | reflexivity].
Qed.

Lemma run_from_place b p e l :
  id e = b -> run_from b (place_before b (p, e) l) = (p, e) :: run_from b l.
Proof.
  intros He. induction l as [|[a y] r IH]; simpl.
  - rewrite He, Z.eqb_refl. reflexivity.
  - destruct (Z.eqb_spec (id y) b) as [Hy|Hy]; simpl.
    + rewrite He, Z.eqb_refl. reflexivity.
    + destruct (Z.eqb_spec (id y) b); [congruence | exact IH].
Qed.

Lemma runs_ok_place b p e l :
  id e = b -> runs_ok (ids l) -> runs_ok (ids (place_before b (p, e) l)).
Proof.
  intros He. induction l as [|[a y] r IH]; simpl.
  - intros _. split; [intros Hin; apply elem_of_nil in Hin as [] | exact I].
  - intros [Hy Hr]. destruct (Z.eqb_spec (id y) b) as [Hyb|Hyb]; simpl.
    + rewrite He, Hyb. split; [reflexivity|]. rewrite <- Hyb. split; assumption.
    + split; [|auto]. intros Hin.
      assert (Hin' : id y ∈ ids r).
      { unfold ids in Hin. rewrite (place_before_perm b (p, e) r) in Hin. simpl in Hin.
        apply elem_of_cons in Hin as [Hin|Hin]; [congruence | exact Hin]. }
      specialize (Hy Hin'). destruct r as [|[a' y'] r']; [discriminate|].
      simpl in Hy. injection Hy as Hy. simpl.
      destruct (Z.eqb_spec (id y') b); [congruence|]. simpl. congruence.
Qed.

Lemma Insert_place b p e l :
  NoDup l.*1 -> p = tList.fresh_ptr l -> id e = b ->
  tList.Insert l (insert_point (head_of b l)) e = Done (place_before b (p, e) l)
  /\ tListIterator.Prev (place_before b (p, e) l) (insert_point (head_of b l)) = Done (At p).
Proof.
  intros Hnd -> He. pose proof (fresh_ptr_fresh l) as Hfresh.
  destruct (head_of b l) as [q|] eqn:Hhd.
  - apply head_of_Some in Hhd as (l1 & a & y & l2 & -> & -> & Hy & Hb).
    rewrite (place_before_head _ _ _ _ _ _ Hb Hy). cbn [insert_point].
    rewrite (Insert_at l1 a y l2 e Hnd). split; [reflexivity|].
    replace (l1 ++ (tList.fresh_ptr (l1 ++ (a, y) :: l2), e) :: (a, y) :: l2)
      with ((l1 ++ [(tList.fresh_ptr (l1 ++ (a, y) :: l2), e)]) ++ (a, y) :: l2)
      by (rewrite <- app_assoc; reflexivity).
    rewrite Prev_at; [rewrite last_pos_snoc; reflexivity|].
    rewrite <- app_assoc. simpl.
    apply NoDup_insert; [|exact Hnd].
    exact Hfresh.
  - apply head_of_None in Hhd. rewrite (place_before_absent _ _ _ Hhd).
    cbn [insert_point tListIterator.Reset tList.Insert tListIterator.Prev].
    rewrite last_pos_snoc. split; reflexivity.
Qed.

Lemma lists_ok_place size l cells b p e :
  lists_ok size l cells -> 0 <= b < size -> id e = b -> id e = hash size (key e) ->
  p ∉ l.*1 ->
  lists_ok size (place_before b (p, e) l) (<[Z.to_nat b := Some (At p)]> cells).
Proof.
  intros [Hsz Hnd Hcells Hruns Hhash] Hb He Hh Hp. split.
  - rewrite length_insert. exact Hsz.
  - rewrite (place_before_perm b (p, e) l). simpl. apply NoDup_cons. auto.
  - intros b'. rewrite length_insert. intros Hb'.
    rewrite (head_of_place _ _ _ _ _ He).
    destruct (Z.eqb_spec b (Z.of_nat b')) as [->|Hne].
    + rewrite Nat2Z.id. rewrite list_lookup_insert_eq; [reflexivity | exact Hb'].
    + rewrite list_lookup_insert_ne; [auto | lia].
  - apply runs_ok_place; assumption.
  - rewrite (place_before_perm b (p, e) l). apply Forall_cons. auto.
Qed.

Lemma cell_get size l cells b :
  lists_ok size l cells -> 0 <= b < size -> tArray.get cells b = Done (head_of b l).
Proof.
  intros Hok Hb. unfold tArray.get.
  destruct (Z.ltb_spec b 0); [lia|].
  rewrite (ok_cells _ _ _ Hok (Z.to_nat b)); [|rewrite (ok_size _ _ _ Hok) in Hb; lia].
  rewrite Z2Nat.id by lia. reflexivity.
Qed.

Lemma cell_set size l cells b x :
  lists_ok size l cells -> 0 <= b < size ->
  tArray.set cells b x = Done (<[Z.to_nat b := x]> cells).
Proof.
  intros Hok Hb. unfold tArray.set.
  destruct (Z.ltb_spec b 0); [lia|].
  destruct (Nat.ltb_spec (Z.to_nat b) (length cells)); [reflexivity|].
  rewrite (ok_size _ _ _ Hok) in Hb. lia.
Qed.

Lemma HashKey_at_Done size k : size <> 0 -> HashKey_at size k = Done (hash size k).
Proof.
  intros Hne. unfold HashKey_at. destruct (Z.eqb_spec size 0); [congruence | reflexivity].
Qed.

Lemma HashKey_at_zero k : HashKey_at 0 k = Fail Undefined.
Proof. reflexivity. Qed.

Lemma lists_ok_size_nonneg size l cells : lists_ok size l cells -> 0 <= size.
Proof. intros Hok. rewrite (ok_size _ _ _ Hok). lia. Qed.

Lemma Add_spec t k d :
  table_ok t -> table_size t <> 0 -> Add t k d = Done (Add_result t k d).
Proof.
  intros [Hcount Hok] Hne. unfold Add, HashKey.
  pose proof (lists_ok_size_nonneg _ _ _ Hok) as Hge.
  assert (Hbin : 0 <= hash (table_size t) k < table_size t) by (apply hash_range; lia).
  rewrite (HashKey_at_Done _ _ Hne). cbn [bind].
  rewrite (cell_get _ _ _ _ Hok Hbin). cbn [bind].
  destruct (Insert_place (hash (table_size t) k) (tList.fresh_ptr (entry_list t))
              (mkEntry k (hash (table_size t) k) d) (entry_list t)
              (ok_nodup _ _ _ Hok) eq_refl eq_refl) as [-> HPrev].
  cbn [bind]. rewrite HPrev. cbn [bind].
  rewrite (cell_set _ _ _ _ _ Hok Hbin). reflexivity.
Qed.

Lemma Add_Done_size t k d t' : Add t k d = Done t' -> table_size t <> 0.
Proof.
  unfold Add, HashKey, HashKey_at. intros HAdd Hz. rewrite Hz in HAdd. discriminate.
Qed.

Lemma Add_result_ok t k d : table_ok t -> table_size t <> 0 -> table_ok (Add_result t k d).
Proof.
  intros [Hcount Hok] Hne. pose proof (lists_ok_size_nonneg _ _ _ Hok) as Hge.
  split; simpl.
  - rewrite (place_before_perm _ _ (entry_list t)). simpl. lia.
  - apply lists_ok_place; [exact Hok | apply hash_range; lia | reflexivity..|].
    apply fresh_ptr_fresh.
Qed.

Lemma Add_ok t k d t' : table_ok t -> Add t k d = Done t' -> table_ok t'.
Proof.
  intros Hok HAdd. pose proof (Add_Done_size _ _ _ _ HAdd) as Hne.
  rewrite (Add_spec _ _ _ Hok Hne) in HAdd. injection HAdd as <-.
  apply Add_result_ok; assumption.
Qed.

Lemma lists_ok_empty size :
  0 <= size -> lists_ok (V:=V) size [] (replicate (Z.to_nat size) None).
Proof.
  intros Hge. split.
  - rewrite length_replicate. lia.
  - apply NoDup_nil_2.
  - intros b. rewrite length_replicate. intros Hb.
    rewrite lookup_replicate_2 by exact Hb. reflexivity.
  - exact I.
  - apply Forall_nil_2.
Qed.

Lemma tHashTable_new_ok size t : tHashTable_new size = Done t -> table_ok t.
Proof.
  unfold tHashTable_new. destruct (Z.ltb_spec size 0); [discriminate|].
  intros [= <-]. split; [reflexivity|]. simpl. apply lists_ok_empty. lia.
Qed.

Lemma pairs_of_place b p e l :
  pairs_of (place_before b (p, e) l) ≡ₚ (key e, data e) :: pairs_of l.
Proof. unfold pairs_of. rewrite (place_before_perm b (p, e) l). reflexivity. Qed.

Lemma SetTableSize_loop_spec size backup l cells :
  size <> 0 -> lists_ok size l cells ->
  exists l' cells',
    SetTableSize_loop size backup l cells = Done (l', cells')
    /\ lists_ok size l' cells'
    /\ pairs_of l' ≡ₚ pairs_of backup ++ pairs_of l
    /\ length l' = (length backup + length l)%nat.
Proof.
  intros Hne. revert l cells. induction backup as [|[a e] r IH]; intros l cells Hok.
  - exists l, cells. split; [reflexivity|]. split; [exact Hok|]. split; reflexivity.
  - pose proof (lists_ok_size_nonneg _ _ _ Hok) as Hge.
    assert (Hbin : 0 <= hash size (key e) < size) by (apply hash_range; lia).
    cbn [SetTableSize_loop]. rewrite (HashKey_at_Done _ _ Hne). cbn [bind].
    rewrite (cell_get _ _ _ _ Hok Hbin). cbn [bind].
    set (e' := mkEntry (key e) (hash size (key e)) (data e)).
    destruct (Insert_place (hash size (key e)) (tList.fresh_ptr l) e' l
                (ok_nodup _ _ _ Hok) eq_refl eq_refl) as [-> HPrev].
    cbn [bind]. rewrite HPrev. cbn [bind].
    rewrite (cell_set _ _ _ _ _ Hok Hbin). cbn [bind].
    destruct (IH (place_before (hash size (key e)) (tList.fresh_ptr l, e') l)
                 (<[Z.to_nat (hash size (key e)) := Some (At (tList.fresh_ptr l))]> cells))
      as (l' & cells' & Hloop & Hok' & Hperm & Hlen).
    { apply lists_ok_place; [exact Hok | exact Hbin | reflexivity..|]. apply fresh_ptr_fresh. }
    exists l', cells'. split; [exact Hloop|]. split; [exact Hok'|]. split.
    + rewrite Hperm, pairs_of_place. simpl. symmetry. apply Permutation_middle.
    + rewrite Hlen, (place_before_perm _ _ l). simpl. lia.
Qed.

Lemma SetTableSize_ok t size t' : table_ok t -> SetTableSize t size = Done t' -> table_ok t'.
Proof.
  intros [Hcount Hok]. unfold SetTableSize.
  destruct (Z.ltb_spec size 0); [discriminate|].
  destruct (Z.eq_dec size 0) as [->|Hne].
  - destruct (entry_list t) as [|[a e] r] eqn:Hl; simpl; [|discriminate].
    intros [= <-]. split; simpl; [rewrite Hcount; reflexivity|].
    apply (lists_ok_empty 0). lia.
  - destruct (SetTableSize_loop_spec size (entry_list t) [] (replicate (Z.to_nat size) None) Hne)
      as (l' & cells' & -> & Hok' & _ & Hlen).
    { apply lists_ok_empty. lia. }
    cbn [bind]. intros [= <-]. split; simpl; [|exact Hok'].
    rewrite Hlen, Hcount. simpl. f_equal. lia.
Qed.

Lemma before_run_from b l : l = before_run b l ++ run_from b l.
Proof.
  induction l as [|[a e] r IH]; simpl; [reflexivity|].
  destruct (id e =? b); [reflexivity|]. simpl. f_equal. exact IH.
Qed.

Lemma before_run_ids b l : b ∉ ids (before_run b l).
Proof.
  induction l as [|[a e] r IH]; simpl; [apply not_elem_of_nil|].
  destruct (Z.eqb_spec (id e) b); [apply not_elem_of_nil|].
  simpl. rewrite not_elem_of_cons. split; [congruence | exact IH].
Qed.

Lemma run_from_head b l :
  head_of b l = match run_from b l with [] => None | (a, _) :: _ => Some (At a) end.
Proof.
  induction l as [|[a e] r IH]; simpl; [reflexivity|].
  destruct (id e =? b); [reflexivity | exact IH].
Qed.

Lemma run_from_id b l a e r : run_from b l = (a, e) :: r -> id e = b.
Proof.
  induction l as [|[a' e'] r' IH]; simpl; [discriminate|].
  destruct (Z.eqb_spec (id e') b) as [Heq|Hne]; [|exact IH].
  intros [= -> -> ->]. exact Heq.
Qed.

Lemma run_from_app b l1 a e l2 :
  b ∉ ids l1 -> id e = b -> run_from b (l1 ++ (a, e) :: l2) = (a, e) :: l2.
Proof.
  intros Hb He. induction l1 as [|[a' e'] r IH]; simpl.
  - destruct (Z.eqb_spec (id e) b); [reflexivity | congruence].
  - apply not_elem_of_cons in Hb as [Hne Hb]. simpl in Hne.
    destruct (Z.eqb_spec (id e') b); [congruence | exact (IH Hb)].
Qed.

Lemma scan_run_None bin k s : scan_run bin k s = None -> unlink bin k s = None.
Proof.
  induction s as [|[a e] r IH]; simpl; [reflexivity|].
  destruct (id e =? bin); [|reflexivity].
  destruct (key_eqb (key e) k); [discriminate|].
  intros Hr. rewrite (IH Hr). reflexivity.
Qed.

Lemma scan_run_Some bin k s p :
  scan_run bin k s = Some p ->
  exists m1 d w m2,
    p = At d /\ s = m1 ++ (d, w) :: m2 /\ Forall (passed bin k) m1
    /\ id w = bin /\ key_eqb (key w) k = true.
Proof.
  induction s as [|[a e] r IH]; simpl; [discriminate|].
  destruct (Z.eqb_spec (id e) bin) as [Hid|Hid]; [|discriminate].
  destruct (key_eqb (key e) k) eqn:Hk.
  - intros [= <-]. exists [], a, e, r. repeat split; [apply Forall_nil_2 | exact Hid | exact Hk].
  - intros Hr. destruct (IH Hr) as (m1 & d & w & m2 & -> & -> & Hm1 & Hw & Hkw).
    exists ((a, e) :: m1), d, w, m2.
    split; [reflexivity|]. split; [reflexivity|]. split; [|split; assumption].
    apply Forall_cons. split; [split; assumption | exact Hm1].
Qed.

Lemma scan_run_passed bin k m1 d w m2 :
  Forall (passed bin k) m1 -> id w = bin -> key_eqb (key w) k = true ->
  scan_run bin k (m1 ++ (d, w) :: m2) = Some (At d).
Proof.
  intros Hm1 Hw Hk. induction Hm1 as [|[a e] r [He Hke] _ IH]; simpl in *.
  - rewrite Hw, Z.eqb_refl, Hk. reflexivity.
  - rewrite He, Z.eqb_refl, Hke. exact IH.
Qed.

Lemma unlink_passed bin k m1 d w m2 :
  Forall (passed bin k) m1 -> id w = bin -> key_eqb (key w) k = true ->
  unlink bin k (m1 ++ (d, w) :: m2) = Some (data w, m1 ++ m2).
Proof.
  intros Hm1 Hw Hk. induction Hm1 as [|[a e] r [He Hke] _ IH]; simpl in *.
  - rewrite Hw, Z.eqb_refl, Hk. reflexivity.
  - rewrite He, Z.eqb_refl, Hke, IH. reflexivity.
Qed.

Lemma assign_passed bin k v m1 d w m2 :
  Forall (passed bin k) m1 -> id w = bin -> key_eqb (key w) k = true ->
  assign bin k v (m1 ++ (d, w) :: m2) = m1 ++ (d, mkEntry (key w) (id w) v) :: m2.
Proof.
  intros Hm1 Hw Hk. induction Hm1 as [|[a e] r [He Hke] _ IH]; simpl in *.
  - rewrite Hw, Z.eqb_refl, Hk. reflexivity.
  - rewrite He, Z.eqb_refl, Hke, IH. reflexivity.
Qed.

Lemma FindEntry_spec t k :
  table_ok t -> table_size t <> 0 ->
  FindEntry t k
  = Done (scan_run (hash (table_size t) k) k
            (run_from (hash (table_size t) k) (entry_list t))).
Proof.
  intros [Hcount Hok] Hne. unfold FindEntry, HashKey.
  pose proof (lists_ok_size_nonneg _ _ _ Hok) as Hge.
  set (bin := hash (table_size t) k).
  assert (Hbin : 0 <= bin < table_size t) by (apply hash_range; lia).
  rewrite (HashKey_at_Done _ _ Hne). cbn [bind]. fold bin.
  rewrite (cell_get _ _ _ _ Hok Hbin). cbn [bind].
  rewrite run_from_head. pose proof (before_run_from bin (entry_list t)) as Hsplit.
  destruct (run_from bin (entry_list t)) as [|[a e] r] eqn:Hrun; [reflexivity|].
  set (l1 := before_run bin (entry_list t)) in *.
  pose proof (FindEntry_loop_scan (S (length (entry_list t))) l1 ((a, e) :: r) bin k) as HF.
  rewrite <- Hsplit in HF. apply HF; [exact (ok_nodup _ _ _ Hok)|].
  rewrite Hsplit, length_app. simpl. lia.
Qed.

Lemma head_of_absent_app b l1 l2 : b ∉ ids l1 -> head_of b (l1 ++ l2) = head_of b l2.
Proof.
  intros Hb. rewrite head_of_app. apply head_of_None in Hb. rewrite Hb. reflexivity.
Qed.

Lemma head_after_unlink bin l1 a y l2 :
  runs_ok (ids (l1 ++ (a, y) :: l2)) -> id y = bin -> bin ∉ ids l1 ->
  head_of bin (l1 ++ l2)
  = if negb (tListIterator.AtRoot (tList.first_pos l2))
       && match head (l2.*2) with Some e' => id e' =? bin | None => false end
    then Some (tList.first_pos l2) else None.
Proof.
  intros Hruns Hy Hb. rewrite (head_of_absent_app _ _ _ Hb).
  destruct l2 as [|[d w] r]; [reflexivity|]. simpl.
  destruct (Z.eqb_spec (id w) bin) as [Hw|Hw]; [reflexivity|].
  apply head_of_None. rewrite ids_app in Hruns. apply runs_ok_app_r in Hruns.
  simpl in Hruns. destruct Hruns as [Hhd _]. intros Hin.
  rewrite Hy in Hhd. specialize (Hhd ltac:(right; exact Hin)). congruence.
Qed.

Lemma Remove_spec t k u :
  table_ok t -> table_size t <> 0 -> Remove t k u = Remove_outcome t k u.
Proof.
  intros [Hcount Hok] Hne. unfold Remove, Remove_outcome, HashKey.
  pose proof (lists_ok_size_nonneg _ _ _ Hok) as Hge.
  set (bin := hash (table_size t) k).
  assert (Hbin : 0 <= bin < table_size t) by (apply hash_range; lia).
  rewrite (HashKey_at_Done _ _ Hne). cbn [bind]. fold bin.
  rewrite (cell_get _ _ _ _ Hok Hbin). cbn [bind].
  rewrite run_from_head. pose proof (before_run_from bin (entry_list t)) as Hsplit.
  pose proof (before_run_ids bin (entry_list t)) as Hb.
  pose proof (ok_nodup _ _ _ Hok) as Hnd. pose proof (ok_runs _ _ _ Hok) as Hruns.
  pose proof (cell_get _ _ _ _ Hok Hbin) as Hcell.
  pose proof (cell_set _ _ _ _ (head_of bin (entry_list t)) Hok Hbin) as Hcell_id.
  set (l1 := before_run bin (entry_list t)) in *.
  destruct (run_from bin (entry_list t)) as [|[a y] l2] eqn:Hrun; [reflexivity|].
  pose proof (run_from_id _ _ _ _ _ Hrun) as Hy.
  rewrite Hsplit in Hnd, Hruns.
  rewrite Hsplit at 1. rewrite (Get_at l1 a y l2 Hnd). cbn [bind unlink].
  rewrite Hy, Z.eqb_refl.
  destruct (key_eqb (key y) k) eqn:Hk.
  - rewrite Hsplit at 1. rewrite (Remove_at l1 a y l2 Hnd). cbn [bind].
    apply NoDup_mid in Hnd as (_ & _ & Hnd').
    rewrite (Next_last l1 l2 Hnd'). cbn [bind].
    rewrite (Get_first l1 l2 Hnd'). cbn [bind].
    rewrite <- (head_after_unlink bin l1 a y l2 Hruns Hy Hb).
    rewrite (cell_set _ _ _ _ _ Hok Hbin). reflexivity.
  - rewrite Hsplit at 1 2.
    rewrite (Remove_loop_scan _ l1 a y l2 bin k Hnd)
      by (rewrite length_app; simpl; lia).
    cbn [bind]. destruct (scan_run bin k l2) as [p|] eqn:Hscan.
    + apply scan_run_Some in Hscan as (m1 & d & w & m2 & -> & -> & Hm1 & Hw & Hkw).
      rewrite (unlink_passed _ _ _ _ _ _ Hm1 Hw Hkw).
      assert (Hl : entry_list t = (l1 ++ (a, y) :: m1) ++ (d, w) :: m2)
        by (rewrite <- app_assoc; exact Hsplit).
      assert (Hnd2 : NoDup ((l1 ++ (a, y) :: m1) ++ (d, w) :: m2).*1)
        by (rewrite <- app_assoc; exact Hnd).
      rewrite Hl. rewrite (Get_at _ d w m2 Hnd2). cbn [bind].
      rewrite (Remove_at _ d w m2 Hnd2).
      cbn [bind]. rewrite <- app_assoc. simpl. do 3 f_equal.
      symmetry. apply list_insert_id.
      unfold tArray.get in Hcell. destruct (Z.ltb_spec bin 0); [lia|].
      destruct (cell_array t !! Z.to_nat bin) as [c|]; [|discriminate].
      injection Hcell as ->. rewrite Hsplit at 1.
      rewrite !(head_of_absent_app _ _ _ Hb). simpl. rewrite Hy, Z.eqb_refl. reflexivity.
    + rewrite (scan_run_None _ _ _ Hscan). reflexivity.
Qed.

Lemma unlink_Some bin k s v s' :
  unlink bin k s = Some (v, s') ->
  exists m1 d w m2,
    s = m1 ++ (d, w) :: m2 /\ s' = m1 ++ m2 /\ Forall (passed bin k) m1
    /\ id w = bin /\ key_eqb (key w) k = true /\ v = data w.
Proof.
  revert s'. induction s as [|[a e] r IH]; intros s'; simpl; [discriminate|].
  destruct (Z.eqb_spec (id e) bin) as [Hid|Hid]; [|discriminate].
  destruct (key_eqb (key e) k) eqn:Hk.
  - intros [= <- <-]. exists [], a, e, r.
    repeat split; [apply Forall_nil_2 | exact Hid | exact Hk].
  - destruct (unlink bin k r) as [[v' r']|]; [|discriminate].
    intros [= <- <-]. destruct (IH r' eq_refl) as (m1 & d & w & m2 & -> & -> & Hm1 & Hw & Hkw & ->).
    exists ((a, e) :: m1), d, w, m2.
    split; [reflexivity|]. split; [reflexivity|]. split; [|repeat split; assumption].
    apply Forall_cons. split; [split; assumption | exact Hm1].
Qed.

Lemma lists_ok_delete size m a w m' cells :
  lists_ok size (m ++ (a, w) :: m') cells -> 0 <= id w < size ->
  lists_ok size (m ++ m') (<[Z.to_nat (id w) := head_of (id w) (m ++ m')]> cells).
Proof.
  intros [Hsz Hnd Hcells Hruns Hhash] Hw. split.
  - rewrite length_insert. exact Hsz.
  - apply NoDup_mid in Hnd as (_ & _ & Hnd). exact Hnd.
  - intros b. rewrite length_insert. intros Hb.
    destruct (Z.eq_dec (id w) (Z.of_nat b)) as [Heq|Hne].
    + rewrite Heq, Nat2Z.id. rewrite list_lookup_insert_eq; [reflexivity | exact Hb].
    + rewrite list_lookup_insert_ne by lia. rewrite (Hcells b Hb).
      rewrite (head_of_skip _ _ _ _ _ Hne). reflexivity.
  - rewrite ids_app in *. simpl in Hruns. exact (runs_ok_delete _ _ _ Hruns).
  - apply Forall_app in Hhash as [Hm Hm']. apply Forall_cons in Hm' as [_ Hm'].
    apply Forall_app. split; assumption.
Qed.

Lemma lists_ok_store size m a w w' m' cells :
  lists_ok size (m ++ (a, w) :: m') cells -> id w' = id w -> key w' = key w ->
  lists_ok size (m ++ (a, w') :: m') cells.
Proof.
  intros [Hsz Hnd Hcells Hruns Hhash] Hid Hkey. split.
  - exact Hsz.
  - rewrite fmap_app, fmap_cons in *. exact Hnd.
  - intros b Hb. rewrite (Hcells b Hb), !head_of_app. simpl. rewrite Hid. reflexivity.
  - rewrite ids_app in *. simpl in *. rewrite Hid. exact Hruns.
  - apply Forall_app in Hhash as [Hm Hm']. apply Forall_cons in Hm' as [Hw Hm'].
    apply Forall_app. split; [exact Hm|]. apply Forall_cons. split; [|exact Hm'].
    simpl in *. rewrite Hid, Hkey. exact Hw.
Qed.

Lemma Remove_Done_size t k u r : Remove t k u = Done r -> table_size t <> 0.
Proof.
  unfold Remove, HashKey, HashKey_at. intros HR Hz. rewrite Hz in HR. discriminate.
Qed.

Lemma Remove_ok t k u v t' : table_ok t -> Remove t k u = Done (v, t') -> table_ok t'.
Proof.
  intros Hok HR. pose proof (Remove_Done_size _ _ _ _ HR) as Hne.
  rewrite (Remove_spec _ _ _ Hok Hne) in HR. unfold Remove_outcome in HR.
  destruct Hok as [Hcount Hok].
  pose proof (lists_ok_size_nonneg _ _ _ Hok) as Hge.
  set (bin := hash (table_size t) k) in *.
  assert (Hbin : 0 <= bin < table_size t) by (apply hash_range; lia).
  pose proof (before_run_from bin (entry_list t)) as Hsplit.
  set (l1 := before_run bin (entry_list t)) in *.
  destruct (run_from bin (entry_list t)) as [|n s]; [discriminate|].
  destruct (unlink bin k (n :: s)) as [[d s']|] eqn:Hun.
  - injection HR as <- <-.
    apply unlink_Some in Hun as (m1 & a & w & m2 & Hs & -> & _ & Hw & _ & _).
    rewrite Hs in Hsplit. rewrite app_assoc in Hsplit. rewrite Hsplit in Hok, Hcount.
    split; simpl.
    + rewrite length_app in Hcount. simpl in Hcount. rewrite app_assoc, length_app. lia.
    + rewrite app_assoc, <- Hw. apply (lists_ok_delete _ _ a w); [exact Hok | lia].
  - injection HR as <- <-. split; assumption.
Qed.

Lemma SetValue_spec t k d :
  table_ok t -> table_size t <> 0 -> SetValue t k d = SetValue_outcome t k d.
Proof.
  intros Hok Hne. unfold SetValue, SetValue_outcome.
  rewrite (FindEntry_spec _ _ Hok Hne). cbn [bind].
  destruct Hok as [Hcount Hok]. set (bin := hash (table_size t) k).
  pose proof (before_run_from bin (entry_list t)) as Hsplit.
  set (l1 := before_run bin (entry_list t)) in *.
  destruct (scan_run bin k (run_from bin (entry_list t))) as [p|] eqn:Hscan; [|reflexivity].
  apply scan_run_Some in Hscan as (m1 & a & w & m2 & -> & Hs & Hm1 & Hw & Hkw).
  rewrite Hs in *. rewrite (assign_passed _ _ _ _ _ _ _ Hm1 Hw Hkw).
  rewrite app_assoc in Hsplit. pose proof (ok_nodup _ _ _ Hok) as Hnd.
  rewrite Hsplit in Hnd |- *.
  rewrite (Get_at _ a w m2 Hnd). cbn [bind]. rewrite (Store_at _ a w m2 _ Hnd).
  cbn [bind]. rewrite <- app_assoc. reflexivity.
Qed.

Lemma SetValue_Done_size t k d t' : SetValue t k d = Done t' -> table_size t <> 0.
Proof.
  unfold SetValue, FindEntry, HashKey, HashKey_at. intros HS Hz. rewrite Hz in HS.
  discriminate.
Qed.

Lemma SetValue_ok t k d t' : table_ok t -> SetValue t k d = Done t' -> table_ok t'.
Proof.
  intros Hok HS. pose proof (SetValue_Done_size _ _ _ _ HS) as Hne.
  rewrite (SetValue_spec _ _ _ Hok Hne) in HS. unfold SetValue_outcome in HS.
  set (bin := hash (table_size t) k) in *.
  pose proof (before_run_from bin (entry_list t)) as Hsplit.
  set (l1 := before_run bin (entry_list t)) in *.
  destruct (scan_run bin k (run_from bin (entry_list t))) as [p|] eqn:Hscan;
    [|exact (Add_ok _ _ _ _ Hok HS)].
  injection HS as <-. destruct Hok as [Hcount Hok].
  apply scan_run_Some in Hscan as (m1 & a & w & m2 & -> & Hs & Hm1 & Hw & Hkw).
  rewrite Hs in *. rewrite (assign_passed _ _ _ _ _ _ _ Hm1 Hw Hkw).
  rewrite app_assoc in Hsplit |- *. rewrite Hsplit in Hcount, Hok.
  split; simpl.
  - rewrite Hcount, !length_app. reflexivity.
  - apply (lists_ok_store _ _ a w); [exact Hok | reflexivity..].
Qed.

Lemma perform_ok t c t' : table_ok t -> perform t c = Done t' -> table_ok t'.
Proof.
  intros Hok. destruct c as [k d|k d|k u|size]; simpl.
  - apply Add_ok, Hok.
  - apply SetValue_ok, Hok.
  - destruct (Remove t k u) as [[v t'']|f] eqn:HR; [|discriminate].
    simpl. intros [= <-]. exact (Remove_ok _ _ _ _ _ Hok HR).
  - apply SetTableSize_ok, Hok.
Qed.

Lemma perform_all_ok cs t t' : table_ok t -> perform_all t cs = Done t' -> table_ok t'.
Proof.
  revert t. induction cs as [|c cs IH]; intros t Hok; simpl.
  - intros [= <-]. exact Hok.
  - destruct (perform t c) as [t1|f] eqn:Hc; [|discriminate]. simpl.
    apply IH. exact (perform_ok _ _ _ Hok Hc).
Qed.

Lemma session_ok size cs t : session size cs = Done t -> table_ok t.
Proof.
  unfold session. destruct (tHashTable_new size) as [t0|f] eqn:Hnew; [|discriminate].
  simpl. apply perform_all_ok. exact (tHashTable_new_ok _ _ Hnew).
Qed.

Lemma SetTableSize_Done t size :
  table_ok t -> 0 < size ->
  exists t', SetTableSize t size = Done t' /\ table_size t' = size
             /\ pairs_of (entry_list t') ≡ₚ pairs_of (entry_list t).
Proof.
  intros Hok Hsize. unfold SetTableSize. destruct (Z.ltb_spec size 0); [lia|].
  destruct (SetTableSize_loop_spec size (entry_list t) [] (replicate (Z.to_nat size) None))
    as (l' & cells' & -> & _ & Hperm & _); [lia | apply lists_ok_empty; lia |].
  cbn [bind]. eexists. split; [reflexivity|]. split; [reflexivity|].
  simpl. rewrite Hperm, app_nil_r. reflexivity.
Qed.

Lemma perform_defined t c :
  table_ok t -> 0 < table_size t -> valid_call c ->
  completes_or_asserts (perform t c)
  /\ forall t', perform t c = Done t' -> 0 < table_size t'.
Proof.
  intros Hok Hsize Hc. assert (Hne : table_size t <> 0) by lia.
  destruct c as [k d|k d|k u|size]; simpl in *.
  - rewrite (Add_spec _ _ _ Hok Hne). split; [left; eauto|]. intros t' [= <-]. exact Hsize.
  - rewrite (SetValue_spec _ _ _ Hok Hne). unfold SetValue_outcome.
    destruct (scan_run _ _ _).
    + split; [left; eauto|]. intros t' [= <-]. exact Hsize.
    + rewrite (Add_spec _ _ _ Hok Hne). split; [left; eauto|]. intros t' [= <-]. exact Hsize.
  - rewrite (Remove_spec _ _ _ Hok Hne). unfold Remove_outcome.
    destruct (run_from _ _) as [|n s]; [split; [right; reflexivity | discriminate]|].
    destruct (unlink _ _ _) as [[d s']|]; simpl;
      (split; [left; eauto | intros t' [= <-]; exact Hsize]).
  - destruct (SetTableSize_Done t size Hok Hc) as (t' & -> & Hsz & _).
    split; [left; eauto|]. intros t'' [= <-]. lia.
Qed.

Lemma perform_all_defined cs t :
  table_ok t -> 0 < table_size t -> Forall valid_call cs ->
  completes_or_asserts (perform_all t cs).
Proof.
  revert t. induction cs as [|c cs IH]; intros t Hok Hsize Hcs; simpl.
  - left. eauto.
  - apply Forall_cons in Hcs as [Hc Hcs].
    destruct (perform_defined t c Hok Hsize Hc) as [[[t' Ht']|Hf] Hsz].
    + rewrite Ht'. simpl. apply IH; [exact (perform_ok _ _ _ Hok Ht') | auto | exact Hcs].
    + rewrite Hf. right. reflexivity.
Qed.

(** With table sizes of at least 1, a session never runs into undefined
    behaviour: it completes, or a [Remove] stops on its assertion. *)
Lemma session_defined size cs :
  0 < size -> Forall valid_call cs -> completes_or_asserts (session size cs).
Proof.
  intros Hsize Hcs. unfold session, tHashTable_new.
  destruct (Z.ltb_spec size 0); [lia|]. cbn [bind].
  apply perform_all_defined; [|exact Hsize | exact Hcs].
  split; [reflexivity|]. simpl. apply lists_ok_empty. lia.
Qed.

Lemma run_lookup_scan bin k s :
  run_lookup bin k s = None <-> scan_run bin k s = None.
Proof.
  induction s as [|[a e] r IH]; simpl; [split; reflexivity|].
  destruct (id e =? bin); [|split; reflexivity].
  destruct (key_eqb (key e) k); [split; discriminate | exact IH].
Qed.

Lemma run_lookup_passed bin k m1 d w m2 :
  Forall (passed bin k) m1 -> id w = bin -> key_eqb (key w) k = true ->
  run_lookup bin k (m1 ++ (d, w) :: m2) = Some (data w).
Proof.
  intros Hm1 Hw Hk. induction Hm1 as [|[a e] r [He Hke] _ IH]; simpl in *.
  - rewrite Hw, Z.eqb_refl, Hk. reflexivity.
  - rewrite He, Z.eqb_refl, Hke. exact IH.
Qed.

Lemma Find_spec t k out :
  table_ok t -> table_size t <> 0 ->
  Find t k out
  = Done (match run_lookup (hash (table_size t) k) k
                  (run_from (hash (table_size t) k) (entry_list t)) with
          | Some d => (true, d)
          | None => (false, out)
          end).
Proof.
  intros Hok Hne. unfold Find. rewrite (FindEntry_spec _ _ Hok Hne). cbn [bind].
  destruct Hok as [Hcount Hok]. set (bin := hash (table_size t) k).
  pose proof (before_run_from bin (entry_list t)) as Hsplit.
  set (l1 := before_run bin (entry_list t)) in *.
  destruct (scan_run bin k (run_from bin (entry_list t))) as [p|] eqn:Hscan.
  - apply scan_run_Some in Hscan as (m1 & a & w & m2 & -> & Hs & Hm1 & Hw & Hkw).
    rewrite Hs in *. rewrite (run_lookup_passed _ _ _ _ _ _ Hm1 Hw Hkw).
    rewrite app_assoc in Hsplit. pose proof (ok_nodup _ _ _ Hok) as Hnd.
    rewrite Hsplit in Hnd |- *. rewrite (Get_at _ a w m2 Hnd). reflexivity.
  - apply run_lookup_scan in Hscan. rewrite Hscan. reflexivity.
Qed.

Lemma HasEntry_spec t k :
  table_ok t -> table_size t <> 0 ->
  HasEntry t k
  = Done (match run_lookup (hash (table_size t) k) k
                  (run_from (hash (table_size t) k) (entry_list t)) with
          | Some _ => true
          | None => false
          end).
Proof.
  intros Hok Hne. unfold HasEntry. rewrite (FindEntry_spec _ _ Hok Hne). cbn [bind].
  destruct (scan_run _ _ _) as [p|] eqn:Hscan.
  - destruct (run_lookup _ _ _) eqn:Hl; [reflexivity|].
    apply run_lookup_scan in Hl. congruence.
  - apply run_lookup_scan in Hscan. rewrite Hscan. reflexivity.
Qed.

Lemma HasEntry_Done_size t k r : HasEntry t k = Done r -> table_size t <> 0.
Proof.
  unfold HasEntry, FindEntry, HashKey, HashKey_at. intros HS Hz. rewrite Hz in HS.
  discriminate.
Qed.

Lemma key_eqb_refl (k : K) : key_eqb k k = true.
Proof. apply key_eqb_eq. reflexivity. Qed.

Lemma before_run_place b p e l :
  id e = b -> before_run b (place_before b (p, e) l) = before_run b l.
Proof.
  intros He. induction l as [|[a y] r IH]; simpl.
  - rewrite He, Z.eqb_refl. reflexivity.
  - destruct (Z.eqb_spec (id y) b) as [Hy|Hy]; simpl.
    + rewrite He, Z.eqb_refl. reflexivity.
    + destruct (Z.eqb_spec (id y) b); [congruence|]. rewrite IH. reflexivity.
Qed.

Lemma Find_Add t k d out :
  table_ok t -> table_size t <> 0 -> Find (Add_result t k d) k out = Done (true, d).
Proof.
  intros Hok Hne.
  rewrite (Find_spec _ _ _ (Add_result_ok _ _ _ Hok Hne) Hne). simpl.
  rewrite run_from_place by reflexivity. simpl.
  rewrite Z.eqb_refl, key_eqb_refl. reflexivity.
Qed.

Lemma Remove_Add t k d u :
  table_ok t -> table_size t <> 0 -> Remove (Add_result t k d) k u = Done (d, t).
Proof.
  intros Hok Hne.
  rewrite (Remove_spec _ _ _ (Add_result_ok _ _ _ Hok Hne) Hne).
  unfold Remove_outcome. simpl.
  rewrite run_from_place, before_run_place by reflexivity. simpl.
  rewrite Z.eqb_refl, key_eqb_refl.
  destruct Hok as [Hcount Hok]. pose proof (lists_ok_size_nonneg _ _ _ Hok) as Hge.
  set (bin := hash (table_size t) k).
  assert (Hbin : 0 <= bin < table_size t) by (apply hash_range; lia).
  rewrite <- before_run_from. rewrite list_insert_insert_eq.
  rewrite list_insert_id.
  - destruct t; simpl. do 3 f_equal. lia.
  - rewrite (ok_cells _ _ _ Hok (Z.to_nat bin)).
    + rewrite Z2Nat.id by lia. reflexivity.
    + rewrite (ok_size _ _ _ Hok) in Hbin. lia.
Qed.

Lemma run_from_absent_app b l1 s : b ∉ ids l1 -> run_from b (l1 ++ s) = run_from b s.
Proof.
  intros Hb. induction l1 as [|[a e] r IH]; simpl; [reflexivity|].
  apply not_elem_of_cons in Hb as [Hne Hb]. simpl in Hne.
  destruct (Z.eqb_spec (id e) b); [congruence | exact (IH Hb)].
Qed.

Lemma run_from_idem b l : run_from b (run_from b l) = run_from b l.
Proof.
  induction l as [|[a e] r IH]; simpl; [reflexivity|].
  destruct (Z.eqb_spec (id e) b) as [Heq|Hne]; [|exact IH].
  simpl. rewrite Heq, Z.eqb_refl. reflexivity.
Qed.

Lemma run_from_assign bin k d l :
  run_from bin (before_run bin l ++ assign bin k d (run_from bin l))
  = assign bin k d (run_from bin l).
Proof.
  rewrite (run_from_absent_app _ _ _ (before_run_ids bin l)).
  pose proof (run_from_idem bin l) as Hidem.
  destruct (run_from bin l) as [|[a e] r]; [reflexivity|].
  simpl in *. destruct (Z.eqb_spec (id e) bin) as [Heq|Hne].
  - destruct (key_eqb (key e) k); simpl; rewrite Heq, Z.eqb_refl; reflexivity.
  - simpl. destruct (Z.eqb_spec (id e) bin); [congruence | exact Hidem].
Qed.

Lemma run_lookup_assign bin k d s :
  run_lookup bin k s <> None -> run_lookup bin k (assign bin k d s) = Some d.
Proof.
  induction s as [|[a e] r IH]; simpl; [congruence|].
  destruct (Z.eqb_spec (id e) bin) as [Heq|Hne].
  - destruct (key_eqb (key e) k) eqn:Hk; simpl.
    + rewrite Heq, Z.eqb_refl, Hk. reflexivity.
    + rewrite Heq, Z.eqb_refl, Hk. exact IH.
  - congruence.
Qed.

Lemma unlink_absent bin k s :
  (forall n, n ∈ s -> id n.2 = bin -> key n.2 <> k) -> unlink bin k s = None.
Proof.
  induction s as [|[a e] r IH]; simpl; intros Hs; [reflexivity|].
  destruct (Z.eqb_spec (id e) bin) as [Heq|Hne]; [|reflexivity].
  destruct (key_eqb (key e) k) eqn:Hk.
  - apply key_eqb_eq in Hk. exfalso. apply (Hs (a, e)); [left | exact Heq | exact Hk].
  - rewrite IH; [reflexivity|]. intros n Hn. apply Hs. right. exact Hn.
Qed.

Lemma run_from_subset b l n : n ∈ run_from b l -> n ∈ l.
Proof.
  intros Hn. rewrite (before_run_from b l). apply elem_of_app. right. exact Hn.
Qed.

Lemma SetValue_present t k d :
  table_ok t -> table_size t <> 0 ->
  run_lookup (hash (table_size t) k) k
    (run_from (hash (table_size t) k) (entry_list t)) <> None ->
  exists t',
    SetValue t k d = Done t'
    /\ table_ok t' /\ table_size t' = table_size t
    /\ entry_count t' = entry_count t
    /\ length (entry_list t') = length (entry_list t)
    /\ run_lookup (hash (table_size t') k) k
         (run_from (hash (table_size t') k) (entry_list t')) = Some d.
Proof.
  intros Hok Hne Hl.
  pose proof (SetValue_spec t k d Hok Hne) as Hsv. unfold SetValue_outcome in Hsv.
  destruct (scan_run _ _ _) eqn:Hscan; [|apply run_lookup_scan in Hscan; congruence].
  eexists. split; [exact Hsv|]. split; [exact (SetValue_ok _ _ _ _ Hok Hsv)|].
  split; [reflexivity|]. split; [reflexivity|]. simpl.
  rewrite run_from_assign. split; [|apply run_lookup_assign, Hl].
  apply scan_run_Some in Hscan as (m1 & a & w & m2 & _ & Hrun & Hm1 & Hw & Hkw).
  rewrite Hrun, (assign_passed _ _ _ _ _ _ _ Hm1 Hw Hkw).
  rewrite (before_run_from (hash (table_size t) k) (entry_list t)) at 2.
  rewrite Hrun, !length_app. reflexivity.
Qed.

Lemma SetValue_lookup t k d :
  table_ok t -> table_size t <> 0 ->
  exists t',
    SetValue t k d = Done t' /\ table_ok t' /\ table_size t' = table_size t
    /\ run_lookup (hash (table_size t') k) k
         (run_from (hash (table_size t') k) (entry_list t')) = Some d.
Proof.
  intros Hok Hne.
  destruct (run_lookup (hash (table_size t) k) k
              (run_from (hash (table_size t) k) (entry_list t))) eqn:Hl.
  - destruct (SetValue_present t k d Hok Hne) as (t' & Hsv & Hok' & Hsz & _ & _ & Hl');
      [congruence|].
    exists t'. auto.
  - pose proof (SetValue_spec t k d Hok Hne) as Hsv. unfold SetValue_outcome in Hsv.
    apply run_lookup_scan in Hl. rewrite Hl in Hsv.
    rewrite (Add_spec _ _ _ Hok Hne) in Hsv.
    exists (Add_result t k d). split; [exact Hsv|].
    split; [apply Add_result_ok; assumption|]. split; [reflexivity|].
    simpl. rewrite run_from_place by reflexivity. simpl.
    rewrite Z.eqb_refl, key_eqb_refl. reflexivity.
Qed.

Lemma SetValue_then_Find t k d out :
  table_ok t -> table_size t <> 0 ->
  exists t', SetValue t k d = Done t' /\ Find t' k out = Done (true, d).
Proof.
  intros Hok Hne. destruct (SetValue_lookup t k d Hok Hne) as (t' & Hsv & Hok' & Hsz & Hl).
  exists t'. split; [exact Hsv|].
  rewrite (Find_spec _ _ _ Hok'), Hl; [reflexivity | congruence].
Qed.

End Table_facts.

(** ** The specification of the table *)

Section Table_claims.
Context {K V : Type} `{HashType K} `{Inhabited V}.
Implicit Types (t : tHashTable K V) (cs : list (call K V)).

(** Claim C1.  After any sequence of [Add], [SetValue], [Remove] and
    [SetTableSize] on a fresh table that runs to completion: [entry_count]
    is the number of entries of the entry list; a non-empty cell points at
    an entry of the list whose cached bucket id is the index of the cell;
    the entries of one bucket id form one contiguous run; and every cached
    bucket id is the hash of the entry's key under the current size. *)
Theorem session_invariants size cs t :
  session size cs = Done t ->
  entry_count t = Z.of_nat (length (entry_list t))
  /\ (forall (b : nat) p, cell_array t !! b = Some (Some p) ->
        exists a e, p = At a /\ (a, e) ∈ entry_list t /\ id e = Z.of_nat b)
  /\ grouped (ids (entry_list t))
  /\ Forall (fun n => id n.2 = hash (table_size t) (key n.2)) (entry_list t).
Proof.
  intros Hs. destruct (session_ok _ _ _ Hs) as [Hcount Hok].
  split; [exact Hcount|]. split; [|split].
  - intros b p Hb. pose proof (lookup_lt_Some _ _ _ Hb) as Hlt.
    rewrite (ok_cells _ _ _ Hok b Hlt) in Hb. injection Hb as Hb.
    apply head_of_Some in Hb as (l1 & a & e & l2 & -> & Hl & He & _).
    exists a, e. split; [reflexivity|]. split; [|exact He].
    rewrite Hl. apply elem_of_app. right. left.
  - apply runs_ok_grouped, (ok_runs _ _ _ Hok).
  - exact (ok_hash _ _ _ Hok).
Qed.

(** Claim C3.  [Add] links the new entry at the tail of the entry list
    when the cell of the key's bucket is empty, and immediately before the
    entry the cell points at otherwise; in both cases the cell then points
    at the new entry, whose cached bucket id is the hash of the key, and
    [entry_count] has grown by one. *)
Theorem Add_placement size cs t k d :
  session size cs = Done t ->
  table_size t <> 0 ->
  let bin := hash (table_size t) k in
  exists t' p,
    let new_node := (p, mkEntry k bin d) in
    Add t k d = Done t'
    /\ entry_count t' = entry_count t + 1
    /\ tArray.get (cell_array t') bin = Done (Some (At p))
    /\ (tArray.get (cell_array t) bin = Done None ->
        entry_list t' = entry_list t ++ [new_node])
    /\ (forall h, tArray.get (cell_array t) bin = Done (Some h) ->
        exists l1 a e l2,
          h = At a /\ entry_list t = l1 ++ (a, e) :: l2
          /\ entry_list t' = l1 ++ new_node :: (a, e) :: l2).
Proof.
  intros Hs Hne bin. pose proof (session_ok _ _ _ Hs) as Hok.
  exists (Add_result t k d), (tList.fresh_ptr (entry_list t)).
  split; [apply Add_spec; assumption|]. split; [reflexivity|].
  pose proof (Add_result_ok t k d Hok Hne) as [_ Hok'].
  destruct Hok as [_ Hok]. pose proof (lists_ok_size_nonneg _ _ _ Hok) as Hge.
  assert (Hbin : 0 <= bin < table_size t) by (apply hash_range; lia).
  rewrite (cell_get _ _ _ _ Hok Hbin).
  split; [|split].
  - rewrite (cell_get _ _ _ _ Hok' Hbin). simpl. fold bin.
    rewrite head_of_place by reflexivity. rewrite Z.eqb_refl. reflexivity.
  - intros [= Hhd]. apply head_of_None in Hhd. simpl. fold bin.
    apply place_before_absent, Hhd.
  - intros h [= Hhd].
    apply head_of_Some in Hhd as (l1 & a & e & l2 & -> & Hl & He & Hb).
    exists l1, a, e, l2. split; [reflexivity|]. split; [exact Hl|].
    simpl. fold bin. rewrite Hl. apply place_before_head; assumption.
Qed.

(** Claim C5, amended.  [Remove] of a key whose cell is empty stops on
    the assertion.  [Remove] of a key that no entry of its non-empty bucket
    carries completes with no failure signal and returns its local
    [out_data] as the declaration left it, never assigned: the
    default-constructed value only where that declaration constructs one,
    an indeterminate value for [int] and pointer data. *)
Theorem Remove_failures size cs t k out_data :
  session size cs = Done t ->
  table_size t <> 0 ->
  let bin := hash (table_size t) k in
  (tArray.get (cell_array t) bin = Done None ->
   Remove t k out_data = Fail AssertFailed)
  /\ (forall h, tArray.get (cell_array t) bin = Done (Some h) ->
       (forall n, n ∈ entry_list t -> id n.2 = bin -> key n.2 <> k) ->
       Remove t k out_data = Done (out_data, t)).
Proof.
  intros Hs Hne bin. pose proof (session_ok _ _ _ Hs) as Hok.
  rewrite (Remove_spec _ _ _ Hok Hne). unfold Remove_outcome. fold bin.
  destruct Hok as [_ Hok]. pose proof (lists_ok_size_nonneg _ _ _ Hok) as Hge.
  assert (Hbin : 0 <= bin < table_size t) by (apply hash_range; lia).
  rewrite (cell_get _ _ _ _ Hok Hbin), run_from_head.
  split.
  - destruct (run_from bin (entry_list t)) as [|[a e] r]; [reflexivity | discriminate].
  - intros h Hh Hmiss.
    destruct (run_from bin (entry_list t)) as [|n s] eqn:Hrun; [discriminate|].
    rewrite unlink_absent; [reflexivity|].
    intros n' Hn'. apply Hmiss. apply (run_from_subset bin). rewrite Hrun. exact Hn'.
Qed.

(** Claim C10.  A [Remove] of a key that no entry of its non-empty bucket
    carries leaves the table as it was: the entry list, [entry_count] and
    every cell keep their values. *)
Theorem Remove_miss_unchanged size cs t k h out_data :
  session size cs = Done t ->
  tArray.get (cell_array t) (hash (table_size t) k) = Done (Some h) ->
  (forall n, n ∈ entry_list t -> id n.2 = hash (table_size t) k -> key n.2 <> k) ->
  exists v t',
    Remove t k out_data = Done (v, t')
    /\ entry_list t' = entry_list t
    /\ entry_count t' = entry_count t
    /\ cell_array t' = cell_array t
    /\ t' = t.
Proof.
  intros Hs Hh Hmiss. pose proof (session_ok _ _ _ Hs) as Hok.
  assert (Hne : table_size t <> 0).
  { intros Hz. destruct Hok as [_ Hok]. pose proof (ok_size _ _ _ Hok) as Hsz.
    rewrite Hz in Hsz. destruct (cell_array t); [|simpl in Hsz; lia].
    unfold tArray.get in Hh. destruct (_ <? 0); [discriminate|].
    rewrite lookup_nil in Hh. discriminate. }
  exists out_data, t. split; [|repeat split].
  rewrite (Remove_spec _ _ _ Hok Hne). unfold Remove_outcome.
  set (bin := hash (table_size t) k) in *.
  destruct Hok as [_ Hok]. pose proof (lists_ok_size_nonneg _ _ _ Hok) as Hge.
  assert (Hbin : 0 <= bin < table_size t) by (apply hash_range; lia).
  rewrite (cell_get _ _ _ _ Hok Hbin), run_from_head in Hh.
  destruct (run_from bin (entry_list t)) as [|n s] eqn:Hrun; [discriminate|].
  rewrite unlink_absent; [reflexivity|].
  intros n' Hn'. apply Hmiss. apply (run_from_subset bin). rewrite Hrun. exact Hn'.
Qed.

End Table_claims.

(** ** The sorted snapshot [AsLists] *)

Section AsLists_facts.
Context {K V : Type} `{HashType K} `{Inhabited V}.
Implicit Types (l : tList (tHashEntry K V)) (t : tHashTable K V).
Implicit Types (kl : tList K) (vl : tList V) (out : list (K * V)).

Lemma Insert_first {T : Type} (l1 l2 : tList T) (x : T) :
  NoDup (l1 ++ l2).*1 ->
  tList.Insert (l1 ++ l2) (tList.first_pos l2) x
  = Done (l1 ++ (tList.fresh_ptr (l1 ++ l2), x) :: l2).
Proof.
  destruct l2 as [|[a y] l2]; intros Hnd.
  - simpl. rewrite !app_nil_r. reflexivity.
  - apply Insert_at, Hnd.
Qed.

Lemma NoDup_fresh {T : Type} (l1 l2 : tList T) (x : T) :
  NoDup (l1 ++ l2).*1 -> NoDup (l1 ++ (tList.fresh_ptr (l1 ++ l2), x) :: l2).*1.
Proof. intros Hnd. apply NoDup_insert; [apply fresh_ptr_fresh | exact Hnd]. Qed.

Lemma AsLists_scan_spec cur v kb :
  forall fuel (ka : tList K) (va vb : tList V),
    NoDup (ka ++ kb).*1 -> NoDup (va ++ vb).*1 ->
    length kb = length vb -> (length kb < fuel)%nat ->
    exists ks kb' vs vb',
      kb = ks ++ kb' /\ vb = vs ++ vb' /\ length ks = length vs
      /\ AsLists_scan fuel cur (ka ++ kb) (va ++ vb) (tList.last_pos ka) (tList.first_pos vb)
         = Done (tList.first_pos kb', tList.first_pos vb')
      /\ sorted_insert cur v (zip (kb.*2) (vb.*2))
         = zip (ks.*2) (vs.*2) ++ (cur, v) :: zip (kb'.*2) (vb'.*2).
Proof.
  induction kb as [|[a k'] kb IH]; intros fuel ka va vb Hndk Hndv Hlen Hfuel;
    (destruct fuel as [|fuel]; [simpl in Hfuel; lia|]);
    cbn [AsLists_scan]; rewrite (Next_last ka _ Hndk); cbn [bind].
  - destruct vb; [|discriminate]. exists [], [], [], [].
    repeat split; reflexivity.
  - destruct vb as [|[b v'] vb]; [discriminate|].
    rewrite (Get_first ka _ Hndk). cbn [bind fmap list_fmap head snd].
    destruct (key_gtb cur k') eqn:Hgt.
    + change (tList.first_pos ((b, v') :: vb)) with (At b).
      rewrite (Next_first va b v' vb Hndv). cbn [bind].
      change (tList.first_pos ((a, k') :: kb)) with (At a).
      rewrite <- (last_pos_snoc ka a k').
      replace (ka ++ (a, k') :: kb) with ((ka ++ [(a, k')]) ++ kb) in *
        by (rewrite <- app_assoc; reflexivity).
      replace (va ++ (b, v') :: vb) with ((va ++ [(b, v')]) ++ vb) in *
        by (rewrite <- app_assoc; reflexivity).
      destruct (IH fuel (ka ++ [(a, k')]) (va ++ [(b, v')]) vb Hndk Hndv)
        as (ks & kb' & vs & vb' & -> & -> & Hl & Hscan & Hins);
        [simpl in Hlen; lia | simpl in Hfuel; lia |].
      exists ((a, k') :: ks), kb', ((b, v') :: vs), vb'.
      split; [reflexivity|]. split; [reflexivity|]. split; [simpl; lia|].
      split; [exact Hscan|]. simpl. rewrite Hgt. f_equal. exact Hins.
    + exists [], ((a, k') :: kb), [], ((b, v') :: vb).
      split; [reflexivity|]. split; [reflexivity|]. split; [reflexivity|].
      split; [reflexivity|]. simpl. rewrite Hgt. reflexivity.
Qed.

Lemma zip_app_mid (ks kb' : tList K) (vs vb' : tList V) p q k v :
  length ks = length vs ->
  zip ((ks ++ (p, k) :: kb').*2) ((vs ++ (q, v) :: vb').*2)
  = zip (ks.*2) (vs.*2) ++ (k, v) :: zip (kb'.*2) (vb'.*2).
Proof.
  revert vs. induction ks as [|[a k0] ks IH]; intros [|[b v0] vs] Hlen;
    try discriminate; simpl; [reflexivity|].
  f_equal. apply IH. simpl in Hlen. lia.
Qed.

Lemma AsLists_loop_spec l2 :
  forall fuel l1 kl vl,
    NoDup (l1 ++ l2).*1 -> NoDup kl.*1 -> NoDup vl.*1 -> length kl = length vl ->
    (length l2 < fuel)%nat ->
    exists kl' vl',
      AsLists_loop fuel (l1 ++ l2) (tList.last_pos l1) kl vl = Done (kl', vl')
      /\ NoDup kl'.*1 /\ NoDup vl'.*1 /\ length kl' = length vl'
      /\ zip (kl'.*2) (vl'.*2)
         = fold_left (fun out n => sorted_insert (key n.2) (data n.2) out) l2
             (zip (kl.*2) (vl.*2)).
Proof.
  induction l2 as [|[a e] l2 IH]; intros fuel l1 kl vl Hnd Hndk Hndv Hlen Hfuel;
    (destruct fuel as [|fuel]; [simpl in Hfuel; lia|]);
    cbn [AsLists_loop]; rewrite (Next_last l1 _ Hnd); cbn [bind];
    rewrite (Get_first l1 _ Hnd); cbn [bind fmap list_fmap head snd].
  - exists kl, vl. repeat split; assumption.
  - cbn [tListIterator.Reset tListIterator.Next bind].
    destruct (AsLists_scan_spec (key e) (data e) kl (S (length kl)) [] [] vl)
      as (ks & kb' & vs & vb' & Hk & Hv & Hl & Hscan & Hins);
      [exact Hndk | exact Hndv | exact Hlen | lia |].
    change (AsLists_scan (S (length kl)) (key e) kl vl Root (tList.first_pos vl)
            = Done (tList.first_pos kb', tList.first_pos vb')) in Hscan.
    unfold tListIterator.Reset. rewrite Hscan. cbn [bind]. subst kl vl.
    rewrite (Insert_first ks kb' _ Hndk). cbn [bind].
    rewrite (Insert_first vs vb' _ Hndv). cbn [bind].
    change (tList.first_pos ((a, e) :: l2)) with (At a).
    rewrite <- (last_pos_snoc l1 a e).
    replace (l1 ++ (a, e) :: l2) with ((l1 ++ [(a, e)]) ++ l2) in *
      by (rewrite <- app_assoc; reflexivity).
    destruct (IH fuel (l1 ++ [(a, e)])
                (ks ++ (tList.fresh_ptr (ks ++ kb'), key e) :: kb')
                (vs ++ (tList.fresh_ptr (vs ++ vb'), data e) :: vb'))
      as (kl' & vl' & Hloop & Hndk' & Hndv' & Hlen' & Hzip).
    + exact Hnd.
    + apply NoDup_fresh, Hndk.
    + apply NoDup_fresh, Hndv.
    + rewrite !length_app in *. simpl. lia.
    + simpl in Hfuel. lia.
    + exists kl', vl'. split; [exact Hloop|]. split; [exact Hndk'|].
      split; [exact Hndv'|]. split; [exact Hlen'|].
      rewrite Hzip. simpl. rewrite Hins, (zip_app_mid _ _ _ _ _ _ _ _ Hl). reflexivity.
Qed.

Lemma AsLists_spec t :
  table_ok t ->
  exists kl vl,
    AsLists t [] [] = Done (kl, vl)
    /\ length kl = length vl
    /\ zip (kl.*2) (vl.*2) = snapshot (entry_list t)
    /\ NoDup kl.*1.
Proof.
  intros [_ Hok]. unfold AsLists. simpl.
  destruct (AsLists_loop_spec (entry_list t) (S (length (entry_list t))) [] [] [])
    as (kl & vl & Hloop & Hnd & _ & Hlen & Hzip);
    [exact (ok_nodup _ _ _ Hok) | apply NoDup_nil_2 | apply NoDup_nil_2 | reflexivity | lia |].
  exists kl, vl. split; [exact Hloop|]. split; [exact Hlen|]. split; [exact Hzip | exact Hnd].
Qed.

Lemma key_gtb_asym (a b : K) : key_gtb a b = true -> key_gtb b a = false.
Proof.
  intros Hab. destruct (key_gtb b a) eqn:Hba; [|reflexivity].
  pose proof (key_gtb_trans _ _ _ Hab Hba) as Haa. rewrite key_gtb_irrefl in Haa.
  discriminate.
Qed.

Lemma key_le_trans (a b c : K) : key_le a b -> key_le b c -> key_le a c.
Proof.
  unfold key_le. intros Hab Hbc. destruct (key_gtb a c) eqn:Hac; [|reflexivity].
  destruct (key_gtb b a) eqn:Hba.
  - rewrite (key_gtb_trans _ _ _ Hba Hac) in Hbc. discriminate.
  - rewrite (key_gtb_total _ _ Hab Hba), Hbc in Hac. discriminate.
Qed.

Lemma sorted_insert_perm k v out : sorted_insert k v out ≡ₚ (k, v) :: out.
Proof.
  induction out as [|[k' v'] r IH]; simpl; [reflexivity|].
  destruct (key_gtb k k'); [|reflexivity]. rewrite IH. apply Permutation_swap.
Qed.

Lemma fold_insert_perm l out :
  fold_left (fun out n => sorted_insert (key n.2) (data n.2) out) l out
  ≡ₚ pairs_of l ++ out.
Proof.
  revert out. induction l as [|[a e] r IH]; intros out; simpl; [reflexivity|].
  rewrite IH, sorted_insert_perm. symmetry. apply Permutation_middle.
Qed.

Lemma snapshot_perm l : snapshot l ≡ₚ pairs_of l.
Proof. unfold snapshot. rewrite fold_insert_perm, app_nil_r. reflexivity. Qed.

Lemma sorted_insert_sorted k v out :
  StronglySorted key_le (out.*1) -> StronglySorted key_le ((sorted_insert k v out).*1).
Proof.
  induction out as [|[k' v'] r IH]; simpl; intros Hs.
  - repeat constructor.
  - apply StronglySorted_inv in Hs as [Hr Hk'].
    destruct (key_gtb k k') eqn:Hgt; simpl.
    + constructor; [exact (IH Hr)|].
      rewrite (sorted_insert_perm k v r). simpl. constructor; [|exact Hk'].
      exact (key_gtb_asym _ _ Hgt).
    + constructor; [constructor; assumption|].
      constructor; [exact Hgt|].
      eapply Forall_impl; [exact Hk'|]. intros k'' Hk''.
      exact (key_le_trans _ _ _ Hgt Hk'').
Qed.

Lemma fold_insert_sorted l out :
  StronglySorted key_le (out.*1) ->
  StronglySorted key_le
    ((fold_left (fun out n => sorted_insert (key n.2) (data n.2) out) l out).*1).
Proof.
  revert out. induction l as [|[a e] r IH]; intros out Hs; simpl; [exact Hs|].
  apply IH, sorted_insert_sorted, Hs.
Qed.

Lemma snapshot_sorted l : StronglySorted key_le ((snapshot l).*1).
Proof. apply fold_insert_sorted. constructor. Qed.

Lemma sorted_keys_unique (ks1 ks2 : list K) :
  StronglySorted key_le ks1 -> StronglySorted key_le ks2 -> ks1 ≡ₚ ks2 -> ks1 = ks2.
Proof.
  apply StronglySorted_unique_strong. intros a b _ _ Hab Hba.
  exact (key_gtb_total _ _ Hab Hba).
Qed.

Lemma pairs_of_keys l : (pairs_of l).*1 = (fun n => key n.2) <$> l.
Proof. unfold pairs_of. rewrite <- list_fmap_compose. reflexivity. Qed.
Lemma AsLists_keys t :
  table_ok t ->
  exists kl vl,
    AsLists t [] [] = Done (kl, vl)
    /\ NoDup kl.*1
    /\ StronglySorted key_le (kl.*2)
    /\ kl.*2 ≡ₚ (fun n => key n.2) <$> entry_list t.
Proof.
  intros Hok. destruct (AsLists_spec t Hok) as (kl & vl & HAs & Hlen & Hzip & Hnd).
  assert (Hkeys : kl.*2 = (snapshot (entry_list t)).*1).
  { rewrite <- Hzip. symmetry. apply fst_zip. rewrite !length_fmap. lia. }
  exists kl, vl. split; [exact HAs|]. split; [exact Hnd|].
  rewrite Hkeys. split; [apply snapshot_sorted|].
  rewrite snapshot_perm, pairs_of_keys. reflexivity.
Qed.

End AsLists_facts.

Section AsLists_claims.
Context {K V : Type} `{HashType K} `{Inhabited V}.
Implicit Types (t : tHashTable K V) (cs : list (call K V)).

(** Claim C7.  [AsLists] places each pair by insertion into the output
    built so far, so the key list comes out in ascending order; it is the
    one ascending arrangement of the keys held, whatever the order of the
    entry list; and the i-th value is a value stored with the i-th key. *)
Theorem AsLists_ascending size cs t :
  session size cs = Done t ->
  exists kl vl,
    AsLists t [] [] = Done (kl, vl)
    /\ length kl = length vl
    /\ zip (kl.*2) (vl.*2) = snapshot (entry_list t)
    /\ StronglySorted key_le (kl.*2)
    /\ (forall ks, StronglySorted key_le ks ->
                  ks ≡ₚ ((fun n => key n.2) <$> entry_list t) -> kl.*2 = ks)
    /\ (forall (i : nat) k v,
          kl.*2 !! i = Some k -> vl.*2 !! i = Some v ->
          exists a e, (a, e) ∈ entry_list t /\ key e = k /\ data e = v).
Proof.
  intros Hs. pose proof (session_ok _ _ _ Hs) as Hok.
  destruct (AsLists_spec t Hok) as (kl & vl & HAs & Hlen & Hzip & _).
  exists kl, vl. split; [exact HAs|]. split; [exact Hlen|]. split; [exact Hzip|].
  assert (Hkeys : kl.*2 = (snapshot (entry_list t)).*1).
  { rewrite <- Hzip. symmetry. apply fst_zip. rewrite !length_fmap. lia. }
  split; [rewrite Hkeys; apply snapshot_sorted|]. split.
  - intros ks Hsorted Hperm. apply sorted_keys_unique.
    + rewrite Hkeys. apply snapshot_sorted.
    + exact Hsorted.
    + rewrite Hkeys, Hperm, snapshot_perm, pairs_of_keys. reflexivity.
  - intros i k v Hk Hv.
    assert (Hin : (k, v) ∈ snapshot (entry_list t)).
    { rewrite <- Hzip. apply (list_elem_of_lookup_2 _ i).
      apply lookup_zip_with_Some. exists k, v. auto. }
    rewrite snapshot_perm in Hin. unfold pairs_of in Hin.
    apply list_elem_of_fmap in Hin as ([a e] & [= -> ->] & Hin).
    exists a, e. auto.
Qed.

(** Claim C6.  For a new size of at least 1, [SetTableSize] completes, and
    the snapshot [AsLists] takes afterwards holds the same pairs, each as
    often, as the snapshot taken before; every cached bucket id is then the
    hash of its key under the new size and the entries of one bucket id
    form one contiguous run. *)
Theorem SetTableSize_keeps_pairs size cs t new_size :
  session size cs = Done t ->
  1 <= new_size ->
  exists t' kl vl kl' vl',
    AsLists t [] [] = Done (kl, vl)
    /\ SetTableSize t new_size = Done t'
    /\ AsLists t' [] [] = Done (kl', vl')
    /\ zip (kl'.*2) (vl'.*2) ≡ₚ zip (kl.*2) (vl.*2)
    /\ table_size t' = new_size
    /\ Forall (fun n => id n.2 = hash new_size (key n.2)) (entry_list t')
    /\ grouped (ids (entry_list t')).
Proof.
  intros Hs Hsize. pose proof (session_ok _ _ _ Hs) as Hok.
  destruct (SetTableSize_Done t new_size Hok) as (t' & Hset & Hsz & Hperm); [lia|].
  pose proof (SetTableSize_ok _ _ _ Hok Hset) as Hok'.
  destruct (AsLists_spec t Hok) as (kl & vl & HAs & _ & Hzip & _).
  destruct (AsLists_spec t' Hok') as (kl' & vl' & HAs' & _ & Hzip' & _).
  exists t', kl, vl, kl', vl'.
  split; [exact HAs|]. split; [exact Hset|]. split; [exact HAs'|].
  split; [rewrite Hzip, Hzip', !snapshot_perm; exact Hperm|].
  split; [exact Hsz|]. destruct Hok' as [_ Hok']. split.
  - rewrite <- Hsz. exact (ok_hash _ _ _ Hok').
  - apply runs_ok_grouped, (ok_runs _ _ _ Hok').
Qed.

End AsLists_claims.

(** ** The specification of the dictionary *)

Section Dictionary_claims.
Context {T : Type} `{Inhabited T}.
Variable EditDistance : cString -> cString -> Z.
Variable Convert : cString -> option T.
Implicit Types (d : tDictionary T) (cs : list (call cString T)).

Lemma NearMatch_loop_spec name l2 :
  forall fuel l1 best_match best_dist,
    NoDup (l1 ++ l2).*1 -> (length l2 < fuel)%nat ->
    NearMatch_loop EditDistance fuel (l1 ++ l2) name (tList.last_pos l1) best_match best_dist
    = Done (nearest EditDistance name (l2.*2) best_match best_dist).
Proof.
  induction l2 as [|[a k] l2 IH]; intros fuel l1 bm bd Hnd Hfuel;
    (destruct fuel as [|fuel]; [simpl in Hfuel; lia|]);
    cbn [NearMatch_loop]; rewrite (Next_last l1 _ Hnd); cbn [bind];
    rewrite (Get_first l1 _ Hnd); cbn [bind fmap list_fmap head snd nearest].
  - reflexivity.
  - change (tList.first_pos ((a, k) :: l2)) with (At a).
    rewrite <- (last_pos_snoc l1 a k).
    replace (l1 ++ (a, k) :: l2) with ((l1 ++ [(a, k)]) ++ l2) in *
      by (rewrite <- app_assoc; reflexivity).
    destruct (EditDistance name k <? bd); apply IH; try exact Hnd; simpl in Hfuel; lia.
Qed.

Lemma nearest_spec name ks :
  forall best_match best_dist,
    let r := nearest EditDistance name ks best_match best_dist in
    (Forall (fun k => best_dist <= EditDistance name k) ks /\ r = best_match)
    \/ (exists ks1 ks2,
          ks = ks1 ++ r :: ks2 /\ EditDistance name r < best_dist
          /\ Forall (fun k => EditDistance name r < EditDistance name k) ks1
          /\ Forall (fun k => EditDistance name r <= EditDistance name k) ks2).
Proof.
  induction ks as [|k ks IH]; intros bm bd; simpl.
  - left. split; [constructor | reflexivity].
  - destruct (Z.ltb_spec (EditDistance name k) bd) as [Hlt|Hge].
    + destruct (IH k (EditDistance name k)) as [[Hall Hr]|(ks1 & ks2 & Hks & Hd & H1 & H2)].
      * right. exists [], ks. rewrite Hr. simpl.
        split; [reflexivity|]. split; [exact Hlt|]. split; [constructor | exact Hall].
      * right. exists (k :: ks1), ks2. simpl.
        split; [f_equal; exact Hks|]. split; [lia|]. split; [|exact H2].
        constructor; [exact Hd | exact H1].
    + destruct (IH bm bd) as [[Hall Hr]|(ks1 & ks2 & Hks & Hd & H1 & H2)].
      * left. split; [constructor; assumption | exact Hr].
      * right. exists (k :: ks1), ks2. simpl.
        split; [f_equal; exact Hks|]. split; [exact Hd|]. split; [|exact H2].
        constructor; [lia | exact H1].
Qed.

Lemma cString_Pop_split (front rest : cString) (delim : ascii) :
  lacks delim front ->
  cString_Pop (String.append front (String delim rest)) delim = (front, rest).
Proof.
  induction front as [|c front IH]; simpl.
  - intros _. rewrite Ascii.eqb_refl. reflexivity.
  - intros [Hne Hl]. destruct (Ascii.eqb_spec c delim); [congruence|].
    rewrite (IH Hl). reflexivity.
Qed.

Lemma cString_Pop_whole (s : cString) (delim : ascii) :
  lacks delim s -> cString_Pop s delim = (s, EmptyString).
Proof.
  induction s as [|c s IH]; simpl; [reflexivity|].
  intros [Hne Hl]. destruct (Ascii.eqb_spec c delim); [congruence|].
  rewrite (IH Hl). reflexivity.
Qed.

(** Claim C8.  [NearMatch] starts from the empty string with the length
    of the query as best distance and takes a key of the ascending key
    list only when its distance is strictly less than the best so far.
    So it returns the empty string when no stored key is nearer than the
    length of the query, and otherwise a stored key of least distance that
    precedes, in ascending order, every other stored key of that distance. *)
Theorem NearMatch_nearest size cs d name :
  session size cs = Done (m_hash d) ->
  exists kl vl r,
    tDictionary_AsLists d [] [] = Done (kl, vl)
    /\ NearMatch EditDistance d name = Done r
    /\ r = nearest EditDistance name (kl.*2) EmptyString (cString_size name)
    /\ ((forall k, k ∈ stored_keys d -> cString_size name <= EditDistance name k) ->
        r = EmptyString)
    /\ (forall k, k ∈ stored_keys d -> EditDistance name k < cString_size name ->
        r ∈ stored_keys d
        /\ EditDistance name r < cString_size name
        /\ forall k', k' ∈ stored_keys d ->
              EditDistance name r <= EditDistance name k'
              /\ (EditDistance name k' = EditDistance name r -> key_le r k')).
Proof.
  intros Hs. pose proof (session_ok _ _ _ Hs) as Hok.
  destruct (AsLists_keys (m_hash d) Hok) as (kl & vl & HAs & Hnd & Hsorted & Hperm).
  exists kl, vl, (nearest EditDistance name (kl.*2) EmptyString (cString_size name)).
  split; [exact HAs|]. split.
  { unfold NearMatch, tDictionary_AsLists. rewrite HAs. cbn [bind].
    exact (NearMatch_loop_spec name kl (S (length kl)) [] _ _ Hnd ltac:(lia)). }
  split; [reflexivity|]. fold (stored_keys d) in Hperm.
  pose proof (nearest_spec name (kl.*2) EmptyString (cString_size name)) as Hn.
  simpl in Hn. set (r := nearest _ _ _ _ _) in *.
  destruct Hn as [[Hall Hr]|(ks1 & ks2 & Hks & Hd & H1 & H2)].
  - split; [intros _; exact Hr|]. intros k Hk Hlt. exfalso.
    rewrite <- Hperm in Hk. rewrite Forall_forall in Hall. specialize (Hall k Hk). lia.
  - assert (Hrin : r ∈ stored_keys d).
    { rewrite <- Hperm, Hks. apply elem_of_app. right. left. }
    split.
    + intros Hnone. specialize (Hnone r Hrin). lia.
    + intros _ _ _. split; [exact Hrin|]. split; [exact Hd|].
      intros k' Hk'. rewrite <- Hperm, Hks in Hk'. rewrite Hks in Hsorted.
      apply StronglySorted_app_1_r in Hsorted.
      apply StronglySorted_inv in Hsorted as [_ Hle].
      rewrite Forall_forall in H1, H2, Hle.
      apply elem_of_app in Hk' as [Hk'|Hk']; [specialize (H1 k' Hk'); lia|].
      apply elem_of_cons in Hk' as [->|Hk'].
      * split; [lia|]. intros _. apply (key_gtb_irrefl (K:=cString)).
      * split; [exact (H2 k' Hk') | intros _; exact (Hle k' Hk')].
Qed.

(** Claim C9.  [Load] splits its input at the first occurrence of the
    separator into a key and a remainder (the whole input is the key when
    the separator does not occur) and converts the remainder.  A remainder
    the conversion rejects ends [Load] with the conversion failure, the
    dictionary untouched; otherwise the key is upserted through
    [SetValue], after which [Find] yields the converted value. *)
Theorem Load_upsert size cs d (k rest : cString) (assign : ascii) out :
  session size cs = Done (m_hash d) ->
  table_size (m_hash d) <> 0 ->
  lacks assign k ->
  (Load Convert d (String.append k (String assign rest)) assign
   = match Convert rest with
     | Some value => tDictionary_SetValue d k value
     | None => Fail ConversionFailed
     end)
  /\ (Load Convert d k assign
      = match Convert EmptyString with
        | Some value => tDictionary_SetValue d k value
        | None => Fail ConversionFailed
        end)
  /\ (Convert rest = None ->
      Load Convert d (String.append k (String assign rest)) assign = Fail ConversionFailed)
  /\ (forall value, Convert rest = Some value ->
      exists d',
        Load Convert d (String.append k (String assign rest)) assign = Done d'
        /\ SetValue (m_hash d) k value = Done (m_hash d')
        /\ Find (m_hash d') k out = Done (true, value)).
Proof.
  intros Hs Hne Hk. pose proof (session_ok _ _ _ Hs) as Hok.
  unfold Load. rewrite (cString_Pop_split _ _ _ Hk), (cString_Pop_whole _ _ Hk).
  split; [reflexivity|]. split; [reflexivity|]. split.
  - intros ->. reflexivity.
  - intros value ->. unfold tDictionary_SetValue.
    destruct (SetValue_then_Find (m_hash d) k value out Hok Hne) as (t' & Hsv & Hfind).
    exists (mkDictionary t'). rewrite Hsv. auto.
Qed.

End Dictionary_claims.

(** ** The theorems at work on concrete tables *)

Lemma demo_table_reached : session 3 demo_calls = Done demo_table.
Proof. reflexivity. Defined.

Lemma demo_dictionary_reached :
  session HASH_TABLE_SIZE_DEFAULT demo_words = Done (m_hash demo_dictionary).
Proof. reflexivity. Defined.

Lemma session_invariants_witness :
  session 3 demo_calls = Done demo_table
  /\ grouped (ids (entry_list demo_table))
  /\ entry_count demo_table = 3.
Proof.
  split; [reflexivity|]. split; [|reflexivity].
  exact (proj1 (proj2 (proj2 (session_invariants 3 demo_calls demo_table demo_table_reached)))).
Defined.

Lemma Add_placement_witness :
  exists t' p,
    Add demo_table 5 50 = Done t'
    /\ entry_count t' = entry_count demo_table + 1
    /\ tArray.get (cell_array t') 2 = Done (Some (At p)).
Proof.
  assert (Hsize : table_size demo_table <> 0) by (simpl; lia).
  destruct (Add_placement 3 demo_calls demo_table 5 50 demo_table_reached Hsize)
    as (t' & p & HAdd & Hcount & Hcell & _).
  exists t', p. split; [exact HAdd|]. split; [exact Hcount | exact Hcell].
Defined.

Lemma Remove_failures_witness :
  Remove demo_table 3 40 = Fail AssertFailed
  /\ Remove demo_table 10 40 = Done (40, demo_table).
Proof.
  assert (Hsize : table_size demo_table <> 0) by (simpl; lia).
  split.
  - exact (proj1 (Remove_failures 3 demo_calls demo_table 3 40 demo_table_reached Hsize) eq_refl).
  - apply (proj2 (Remove_failures 3 demo_calls demo_table 10 40 demo_table_reached Hsize) (At 2%nat) eq_refl).
    intros n Hn Hid. simpl in Hn.
    repeat (apply elem_of_cons in Hn as [->|Hn]; [simpl; lia|]).
    apply elem_of_nil in Hn as [].
Defined.

Lemma Remove_miss_unchanged_witness :
  exists v, Remove demo_table 10 40 = Done (v, demo_table).
Proof.
  destruct (Remove_miss_unchanged 3 demo_calls demo_table 10 (At 2%nat) 40 demo_table_reached eq_refl)
    as (v & t' & HR & _ & _ & _ & ->).
  - intros n Hn Hid. simpl in Hn.
    repeat (apply elem_of_cons in Hn as [->|Hn]; [simpl; lia|]).
    apply elem_of_nil in Hn as [].
  - exists v. exact HR.
Defined.

Lemma SetTableSize_keeps_pairs_witness :
  exists t' kl vl kl' vl',
    AsLists demo_table [] [] = Done (kl, vl)
    /\ SetTableSize demo_table 5 = Done t'
    /\ AsLists t' [] [] = Done (kl', vl')
    /\ zip (kl'.*2) (vl'.*2) ≡ₚ zip (kl.*2) (vl.*2).
Proof.
  destruct (SetTableSize_keeps_pairs 3 demo_calls demo_table 5 demo_table_reached ltac:(lia))
    as (t' & kl & vl & kl' & vl' & H1 & H2 & H3 & H4 & _).
  exists t', kl, vl, kl', vl'. auto.
Defined.

Lemma AsLists_ascending_witness :
  exists kl vl,
    AsLists demo_table [] [] = Done (kl, vl) /\ StronglySorted key_le (kl.*2).
Proof.
  destruct (AsLists_ascending 3 demo_calls demo_table demo_table_reached)
    as (kl & vl & HAs & _ & _ & Hsorted & _).
  exists kl, vl. auto.
Defined.

Lemma NearMatch_nearest_witness :
  NearMatch levenshtein demo_dictionary "cat"%string = Done "bat"%string
  /\ NearMatch levenshtein demo_dictionary "zzz"%string = Done EmptyString.
Proof.
  split.
  - destruct (NearMatch_nearest levenshtein HASH_TABLE_SIZE_DEFAULT demo_words
                demo_dictionary "cat"%string demo_dictionary_reached)
      as (kl & vl & r & HAs & HNear & Hr & _).
    vm_compute in HAs. injection HAs as <- <-. rewrite HNear, Hr. reflexivity.
  - destruct (NearMatch_nearest levenshtein HASH_TABLE_SIZE_DEFAULT demo_words
                demo_dictionary "zzz"%string demo_dictionary_reached)
      as (kl & vl & r & _ & HNear & _ & Hnone & _).
    rewrite HNear, Hnone; [reflexivity|].
    intros k Hk. unfold stored_keys in Hk. simpl in Hk.
    repeat (apply elem_of_cons in Hk as [->|Hk]; [vm_compute; discriminate|]).
    apply elem_of_nil in Hk as [].
Defined.

Lemma Load_upsert_witness :
  Load demo_Convert demo_dictionary "x=abc"%string "="%char = Fail ConversionFailed
  /\ exists d',
       Load demo_Convert demo_dictionary "x=42"%string "="%char = Done d'
       /\ Find (m_hash d') "x"%string 0 = Done (true, 42).
Proof.
  assert (Hsize : table_size (m_hash demo_dictionary) <> 0) by (simpl; unfold HASH_TABLE_SIZE_DEFAULT; lia).
  assert (Hlacks : lacks "="%char "x"%string) by (simpl; split; [discriminate | exact I]).
  split.
  - exact (proj1 (proj2 (proj2 (Load_upsert demo_Convert HASH_TABLE_SIZE_DEFAULT demo_words
             demo_dictionary "x"%string "abc"%string "="%char 0 demo_dictionary_reached Hsize Hlacks))) eq_refl).
  - destruct (proj2 (proj2 (proj2 (Load_upsert demo_Convert HASH_TABLE_SIZE_DEFAULT demo_words
             demo_dictionary "x"%string "42"%string "="%char 0 demo_dictionary_reached Hsize Hlacks))) 42 eq_refl)
      as (d' & HLoad & _ & HFind).
    exists d'. split; [exact HLoad | exact HFind].
Defined.

(** ** The hash functions *)

(** Property X1.  For a table size of at least 1, each of the three [HashKey] overloads
    yields an index of the cell array. *)
Theorem HashKey_in_range (ts key : Z) (p : voidp) (s : cString) :
  0 < ts ->
  0 <= HashKey_int ts key < ts
  /\ 0 <= HashKey_voidp ts p < ts
  /\ 0 <= HashKey_cString ts s < ts.
Proof.
  intros Hts. split; [|split].
  - exact (hash_range (K:=Z) ts key Hts).
  - exact (hash_range (K:=voidp) ts p Hts).
  - exact (hash_range (K:=cString) ts s Hts).
Qed.

Lemma HashKey_in_range_witness :
  0 <= HashKey_int 23 (-7) < 23
  /\ 0 <= HashKey_voidp 23 (mk_voidp 4096) < 23
  /\ 0 <= HashKey_cString 23 "ABC"%string < 23.
Proof. apply (HashKey_in_range 23 (-7) (mk_voidp 4096) "ABC"%string). lia. Defined.

(** Property X2.  [HashKey(int)] takes the absolute value of the remainder: a key and
    its negative always share a cell. *)
Theorem HashKey_int_opp (ts key : Z) : HashKey_int ts (- key) = HashKey_int ts key.
Proof. unfold HashKey_int. rewrite Z.rem_opp_l'. apply Z.abs_opp. Qed.

Lemma sum_chars_total (s : cString) (h : Z) :
  sum_chars (h mod 2 ^ 32) s = (h + chars_total (chars_of s)) mod 2 ^ 32.
Proof.
  revert h. induction s as [|c s IH]; intros h; cbn [sum_chars].
  - change (chars_total (chars_of EmptyString)) with 0. rewrite Z.add_0_r. reflexivity.
  - change (chars_total (chars_of (String c s)))
      with (to_unsigned (char_val c) + chars_total (chars_of s)).
    unfold to_unsigned at 1. rewrite IH, <- Z.add_assoc, Zplus_mod_idemp_l.
    reflexivity.
Qed.

Lemma chars_total_perm (cs1 cs2 : list ascii) :
  cs1 ≡ₚ cs2 -> chars_total cs1 = chars_total cs2.
Proof.
  induction 1 as [|c l1 l2 _ IH|c d l|l1 l2 l3 _ IH1 _ IH2]; simpl.
  - reflexivity.
  - unfold chars_total in *. simpl. rewrite IH. reflexivity.
  - unfold chars_total. simpl. lia.
  - congruence.
Qed.

(** Property X3.  [HashKey(cString)] adds up the characters, so two strings made of the
    same characters in any order share a cell, whatever the table size
    (the "ABC" == "CBA" of the comment in the source). *)
Theorem HashKey_cString_permutation (ts : Z) (s1 s2 : cString) :
  chars_of s1 ≡ₚ chars_of s2 -> HashKey_cString ts s1 = HashKey_cString ts s2.
Proof.
  intros Hperm. unfold HashKey_cString. f_equal.
  change (sum_chars 0 s1) with (sum_chars (0 mod 2 ^ 32) s1).
  change (sum_chars 0 s2) with (sum_chars (0 mod 2 ^ 32) s2).
  rewrite !sum_chars_total, (chars_total_perm _ _ Hperm). reflexivity.
Qed.

Lemma HashKey_cString_permutation_witness :
  HashKey_cString 23 "ABC"%string = HashKey_cString 23 "CBA"%string.
Proof.
  apply HashKey_cString_permutation. unfold chars_of. simpl.
  etransitivity; [apply Permutation_swap|].
  etransitivity; [apply Permutation_skip, Permutation_swap|].
  apply Permutation_swap.
Defined.

(** ** The printer *)

Lemma printf_step_bounds (p : TCMalloc_Printer) (r : Z) :
  0 <= left_ p ->
  0 <= left_ (TCMalloc_Printer_printf p r) <= left_ p
  /\ buf_ p <= buf_ (TCMalloc_Printer_printf p r)
  /\ buf_ (TCMalloc_Printer_printf p r) + left_ (TCMalloc_Printer_printf p r)
     <= buf_ p + left_ p.
Proof.
  intros Hleft. unfold TCMalloc_Printer_printf.
  destruct (Z.ltb_spec 0 (left_ p)); [|lia].
  destruct (Z.ltb_spec r 0); simpl; [lia|].
  destruct (Z.ltb_spec (left_ p) r); simpl; lia.
Qed.

(** Property X18.  Whatever [vsnprintf] returns, call after call: [left_] never grows and
    never falls below 0, [buf_] never moves back, and [buf_] never passes
    the end of the buffer it started in. *)
Theorem printf_stays_in_buffer (p : TCMalloc_Printer) (rs : list Z) :
  0 <= left_ p ->
  0 <= left_ (TCMalloc_Printer_run p rs) <= left_ p
  /\ buf_ p <= buf_ (TCMalloc_Printer_run p rs)
  /\ buf_ (TCMalloc_Printer_run p rs) + left_ (TCMalloc_Printer_run p rs)
     <= buf_ p + left_ p.
Proof.
  unfold TCMalloc_Printer_run. revert p. induction rs as [|r rs IH]; intros p Hleft; simpl.
  - lia.
  - destruct (printf_step_bounds p r Hleft) as (Hl & Hb & He).
    destruct (IH (TCMalloc_Printer_printf p r) ltac:(lia)) as (Hl' & Hb' & He'). lia.
Qed.

Lemma printf_stays_in_buffer_witness :
  0 <= left_ (TCMalloc_Printer_run (mkPrinter 0 10) [3; 12; 4; -1; 2]) <= 10
  /\ 0 <= buf_ (TCMalloc_Printer_run (mkPrinter 0 10) [3; 12; 4; -1; 2])
  /\ buf_ (TCMalloc_Printer_run (mkPrinter 0 10) [3; 12; 4; -1; 2])
     + left_ (TCMalloc_Printer_run (mkPrinter 0 10) [3; 12; 4; -1; 2]) <= 0 + 10.
Proof.
  apply (printf_stays_in_buffer (mkPrinter 0 10) [3; 12; 4; -1; 2]). simpl. lia.
Defined.

Lemma printf_full (p : TCMalloc_Printer) (rs : list Z) :
  left_ p <= 0 -> TCMalloc_Printer_run p rs = p.
Proof.
  intros Hfull. unfold TCMalloc_Printer_run. induction rs as [|r rs IH]; simpl; [reflexivity|].
  unfold TCMalloc_Printer_printf at 2. destruct (Z.ltb_spec 0 (left_ p)); [lia | exact IH].
Qed.

(** Property X19.  A call in which [vsnprintf] fails or reports more than [left_]
    characters closes the printer: [left_] becomes 0 with [buf_] where it
    was, and no later call changes either. *)
Theorem printf_truncation_is_final (p : TCMalloc_Printer) (r : Z) (rs : list Z) :
  0 < left_ p -> r < 0 \/ left_ p < r ->
  TCMalloc_Printer_run p (r :: rs) = mkPrinter (buf_ p) 0.
Proof.
  intros Hleft Hr. unfold TCMalloc_Printer_run. simpl.
  assert (Hstep : TCMalloc_Printer_printf p r = mkPrinter (buf_ p) 0).
  { unfold TCMalloc_Printer_printf. destruct (Z.ltb_spec 0 (left_ p)); [|lia].
    destruct (Z.ltb_spec r 0); [reflexivity|].
    destruct (Z.ltb_spec (left_ p) r); [reflexivity | lia]. }
  rewrite Hstep. apply printf_full. simpl. lia.
Qed.

Lemma printf_truncation_is_final_witness :
  TCMalloc_Printer_run (mkPrinter 5 10) [11; 2; 3] = mkPrinter 5 0.
Proof.
  apply (printf_truncation_is_final (mkPrinter 5 10) 11 [2; 3]); simpl; lia.
Defined.

(** Property X20.  While every formatted text fits ([vsnprintf] returns counts that are
    not negative and add up to at most [left_]), [buf_] has advanced by
    their sum and [left_] has dropped by it. *)
Theorem printf_accumulates (p : TCMalloc_Printer) (rs : list Z) :
  Forall (fun r => 0 <= r) rs -> foldr Z.add 0 rs <= left_ p ->
  TCMalloc_Printer_run p rs
  = mkPrinter (buf_ p + foldr Z.add 0 rs) (left_ p - foldr Z.add 0 rs).
Proof.
  unfold TCMalloc_Printer_run. revert p. induction rs as [|r rs IH]; intros p Hrs Hsum; simpl.
  - destruct p; simpl. f_equal; lia.
  - apply Forall_cons in Hrs as [Hr Hrs]. simpl in Hsum.
    assert (Htail : 0 <= foldr Z.add 0 rs).
    { clear -Hrs. induction Hrs; simpl; lia. }
    unfold TCMalloc_Printer_printf at 2.
    destruct (Z.ltb_spec 0 (left_ p)).
    + destruct (Z.ltb_spec r 0); [lia|]. destruct (Z.ltb_spec (left_ p) r); [lia|].
      rewrite IH; [|exact Hrs | simpl; lia]. simpl. f_equal; lia.
    + rewrite IH; [|exact Hrs | lia]. f_equal; lia.
Qed.

Lemma printf_accumulates_witness :
  TCMalloc_Printer_run (mkPrinter 0 10) [3; 0; 7] = mkPrinter 10 0.
Proof.
  apply (printf_accumulates (mkPrinter 0 10) [3; 0; 7]); [|simpl; lia].
  repeat constructor; lia.
Defined.

(** ** Lookup over the whole entry list *)

Section Lookup_facts.
Context {K V : Type} `{HashType K} `{Inhabited V}.
Implicit Types (l s m : tList (tHashEntry K V)) (e w : tHashEntry K V).
Implicit Types (t : tHashTable K V) (cs : list (call K V)) (k : K).

Lemma first_with_app k l1 l2 :
  first_with k (l1 ++ l2)
  = match first_with k l1 with Some d => Some d | None => first_with k l2 end.
Proof.
  induction l1 as [|[a e] r IH]; simpl; [reflexivity|].
  destruct (key_eqb (key e) k); [reflexivity | exact IH].
Qed.

Lemma first_with_None k l :
  first_with k l = None <-> forall n, n ∈ l -> key n.2 <> k.
Proof.
  induction l as [|[a e] r IH]; simpl.
  - split; [intros _ n Hn; apply elem_of_nil in Hn as [] | reflexivity].
  - destruct (key_eqb (key e) k) eqn:Hk.
    + split; [discriminate|]. intros Hall. apply key_eqb_eq in Hk.
      exfalso. apply (Hall (a, e)); [left | exact Hk].
    + rewrite IH. split.
      * intros Hall n Hn. apply elem_of_cons in Hn as [->|Hn]; [|auto].
        simpl. intros Heq. apply key_eqb_eq in Heq. congruence.
      * intros Hall n Hn. apply Hall. right. exact Hn.
Qed.

Lemma first_with_Some k l d :
  first_with k l = Some d -> exists a e, (a, e) ∈ l /\ key e = k /\ data e = d.
Proof.
  induction l as [|[a e] r IH]; simpl; [discriminate|].
  destruct (key_eqb (key e) k) eqn:Hk.
  - intros [= <-]. apply key_eqb_eq in Hk. exists a, e. split; [left | auto].
  - intros Hr. destruct (IH Hr) as (a' & e' & Hin & Hke & Hd).
    exists a', e'. split; [right; exact Hin | auto].
Qed.

Lemma first_with_absent size k s :
  Forall (fun n => id n.2 = hash size (key n.2)) s ->
  hash size k ∉ ids s -> first_with k s = None.
Proof.
  intros Hhash Hnot. apply first_with_None. intros n Hn Hk. apply Hnot.
  rewrite Forall_forall in Hhash. rewrite <- Hk, <- (Hhash n Hn).
  unfold ids. apply list_elem_of_fmap. exists n. auto.
Qed.

Lemma run_lookup_first size k s :
  runs_ok (hash size k :: ids s) ->
  Forall (fun n => id n.2 = hash size (key n.2)) s ->
  run_lookup (hash size k) k s = first_with k s.
Proof.
  induction s as [|[a e] r IH]; intros Hruns Hhash; [reflexivity|].
  apply Forall_cons in Hhash as [He Hhash]. simpl in He.
  destruct Hruns as [Hhd Hruns]. cbn [run_lookup first_with].
  destruct (Z.eqb_spec (id e) (hash size k)) as [Hid|Hid].
  - destruct (key_eqb (key e) k); [reflexivity|].
    apply IH; [|exact Hhash]. simpl in Hruns. rewrite Hid in Hruns. exact Hruns.
  - assert (Hnot : hash size k ∉ ids ((a, e) :: r)).
    { intros Hin. specialize (Hhd Hin). simpl in Hhd. congruence. }
    symmetry. apply (first_with_absent size k ((a, e) :: r)); [|exact Hnot].
    apply Forall_cons. auto.
Qed.

Lemma lookup_global size l cells k :
  lists_ok size l cells ->
  run_lookup (hash size k) k (run_from (hash size k) l) = first_with k l.
Proof.
  intros Hok. set (bin := hash size k).
  pose proof (before_run_from bin l) as Hsplit.
  pose proof (ok_runs _ _ _ Hok) as Hruns. pose proof (ok_hash _ _ _ Hok) as Hhash.
  rewrite Hsplit in Hruns, Hhash. rewrite ids_app in Hruns.
  apply runs_ok_app_r in Hruns. apply Forall_app in Hhash as [Hbefore Hrun].
  rewrite Hsplit at 2. rewrite first_with_app.
  rewrite (first_with_absent size k _ Hbefore (before_run_ids bin l)).
  apply run_lookup_first; [|exact Hrun]. split; [|exact Hruns].
  destruct (run_from bin l) as [|[a e] r] eqn:Hr; intros Hin.
  - apply elem_of_nil in Hin as [].
  - simpl. f_equal. exact (run_from_id _ _ _ _ _ Hr).
Qed.

Lemma Find_global t k out :
  table_ok t -> table_size t <> 0 ->
  Find t k out
  = Done (match first_with k (entry_list t) with
          | Some d => (true, d)
          | None => (false, out)
          end).
Proof.
  intros Hok Hne. rewrite (Find_spec _ _ _ Hok Hne).
  destruct Hok as [_ Hok]. rewrite (lookup_global _ _ _ k Hok). reflexivity.
Qed.

Lemma HasEntry_global t k :
  table_ok t -> table_size t <> 0 ->
  HasEntry t k
  = Done (match first_with k (entry_list t) with Some _ => true | None => false end).
Proof.
  intros Hok Hne. rewrite (HasEntry_spec _ _ Hok Hne).
  destruct Hok as [_ Hok]. rewrite (lookup_global _ _ _ k Hok). reflexivity.
Qed.

Lemma first_with_count k l : first_with k l = None <-> count_key k l = O.
Proof.
  induction l as [|[a e] r IH]; simpl; [split; reflexivity|].
  destruct (key_eqb (key e) k); [split; discriminate | exact IH].
Qed.

Lemma first_with_place k b p e l :
  key_eqb (key e) k = false ->
  first_with k (place_before b (p, e) l) = first_with k l.
Proof.
  intros Hk. induction l as [|[a y] r IH]; simpl.
  - rewrite Hk. reflexivity.
  - destruct (id y =? b); simpl; [rewrite Hk; reflexivity|].
    destruct (key_eqb (key y) k); [reflexivity | exact IH].
Qed.

Lemma key_eqb_ne (a b : K) : a <> b -> key_eqb a b = false.
Proof.
  intros Hne. destruct (key_eqb a b) eqn:Heq; [|reflexivity].
  apply key_eqb_eq in Heq. congruence.
Qed.

Lemma first_with_delete k m a w m' :
  key_eqb (key w) k = false ->
  first_with k (m ++ m') = first_with k (m ++ (a, w) :: m').
Proof. intros Hk. rewrite !first_with_app. simpl. rewrite Hk. reflexivity. Qed.

Lemma first_with_store k m a w w' m' :
  key_eqb (key w) k = false -> key_eqb (key w') k = false ->
  first_with k (m ++ (a, w') :: m') = first_with k (m ++ (a, w) :: m').
Proof. intros Hk Hk'. rewrite !first_with_app. simpl. rewrite Hk, Hk'. reflexivity. Qed.

(** Property X4.  In a table a session has reached, [Find] and [HasEntry] look a key up
    in the whole entry list, not only in its bucket: [HasEntry] is true
    exactly when some entry carries the key, [Find] then yields the data
    of the first such entry of the list, and on a miss it leaves
    [out_data] as it was. *)
Theorem Find_whole_list size cs t k out :
  session size cs = Done t ->
  table_size t <> 0 ->
  Find t k out
  = Done (match first_with k (entry_list t) with
          | Some d => (true, d)
          | None => (false, out)
          end)
  /\ (HasEntry t k = Done true <->
      exists a e, (a, e) ∈ entry_list t /\ key e = k)
  /\ (HasEntry t k = Done false <->
      forall n, n ∈ entry_list t -> key n.2 <> k).
Proof.
  intros Hs Hne. pose proof (session_ok _ _ _ Hs) as Hok.
  split; [exact (Find_global _ _ _ Hok Hne)|].
  rewrite (HasEntry_global _ _ Hok Hne).
  destruct (first_with k (entry_list t)) as [d|] eqn:Hf.
  - split.
    + split; [intros _ | reflexivity].
      apply first_with_Some in Hf as (a & e & Hin & Hk & _). eauto.
    + split; [discriminate|]. intros Hall. apply first_with_None in Hall. congruence.
  - split.
    + split; [discriminate|]. intros (a & e & Hin & Hk).
      rewrite first_with_None in Hf. exfalso. exact (Hf (a, e) Hin Hk).
    + split; [intros _; apply first_with_None, Hf | reflexivity].
Qed.

(** Property X5.  A table fresh from the constructor, of at least one cell, holds
    nothing: its size is 0, [Find] and [HasEntry] miss every key, and
    [Remove] of any key stops on the assertion. *)
Theorem fresh_table_is_empty size k out out_data :
  0 < size ->
  exists t : tHashTable K V,
    tHashTable_new size = Done t
    /\ GetSize t = 0
    /\ Find t k out = Done (false, out)
    /\ HasEntry t k = Done false
    /\ Remove t k out_data = Fail AssertFailed.
Proof.
  intros Hsize. unfold tHashTable_new. destruct (Z.ltb_spec size 0); [lia|].
  eexists. split; [reflexivity|]. split; [reflexivity|].
  set (t := mkTable 0 size [] (replicate (Z.to_nat size) None) : tHashTable K V).
  assert (Hok : table_ok t).
  { split; [reflexivity|]. exact (lists_ok_empty size ltac:(lia)). }
  assert (Hne : table_size t <> 0) by (simpl; lia).
  split; [rewrite (Find_global _ _ _ Hok Hne); reflexivity|].
  split; [rewrite (HasEntry_global _ _ Hok Hne); reflexivity|].
  rewrite (Remove_spec _ _ _ Hok Hne). reflexivity.
Qed.

(** Property X6.  [Add] of a key changes the lookup of no other key, and [GetSize]
    grows by one. *)
Theorem Add_keeps_other_keys size cs t k d k' out :
  session size cs = Done t ->
  table_size t <> 0 ->
  k' <> k ->
  exists t',
    Add t k d = Done t'
    /\ GetSize t' = GetSize t + 1
    /\ Find t' k' out = Find t k' out
    /\ HasEntry t' k' = HasEntry t k'.
Proof.
  intros Hs Hne Hk. pose proof (session_ok _ _ _ Hs) as Hok.
  pose proof (Add_result_ok t k d Hok Hne) as Hok'.
  exists (Add_result t k d). split; [apply Add_spec; assumption|].
  split; [reflexivity|].
  rewrite (Find_global _ _ _ Hok' Hne), (Find_global _ _ _ Hok Hne).
  rewrite (HasEntry_global _ _ Hok' Hne), (HasEntry_global _ _ Hok Hne).
  simpl. rewrite first_with_place; [split; reflexivity|].
  simpl. apply key_eqb_ne. intros Heq. apply Hk. symmetry. exact Heq.
Qed.
End Lookup_facts.

(** ** How the methods act on the keys they are not called with *)

Section Isolation_facts.
Context {K V : Type} `{HashType K} `{Inhabited V}.
Implicit Types (l s m : tList (tHashEntry K V)) (e w : tHashEntry K V).
Implicit Types (t : tHashTable K V) (cs : list (call K V)) (k : K).

Lemma count_key_app k l1 l2 :
  count_key k (l1 ++ l2) = (count_key k l1 + count_key k l2)%nat.
Proof.
  induction l1 as [|[a e] r IH]; simpl; [reflexivity|].
  destruct (key_eqb (key e) k); simpl; rewrite IH; reflexivity.
Qed.

Lemma run_lookup_unlink bin k s v :
  run_lookup bin k s = Some v -> exists s', unlink bin k s = Some (v, s').
Proof.
  intros Hl. destruct (scan_run bin k s) as [p|] eqn:Hscan.
  - apply scan_run_Some in Hscan as (m1 & d & w & m2 & _ & -> & Hm1 & Hw & Hkw).
    rewrite (run_lookup_passed _ _ _ _ _ _ Hm1 Hw Hkw) in Hl. injection Hl as <-.
    exists (m1 ++ m2). apply unlink_passed; assumption.
  - apply run_lookup_scan in Hscan. congruence.
Qed.

Lemma Remove_present_spec t k u v :
  table_ok t -> table_size t <> 0 -> first_with k (entry_list t) = Some v ->
  exists t' m a w m',
    Remove t k u = Done (v, t')
    /\ table_ok t' /\ table_size t' = table_size t
    /\ entry_count t' = entry_count t - 1
    /\ entry_list t = m ++ (a, w) :: m' /\ entry_list t' = m ++ m'
    /\ key w = k /\ data w = v.
Proof.
  intros Hok Hne Hfirst. pose proof Hok as [_ Hlists].
  rewrite <- (lookup_global _ _ _ k Hlists) in Hfirst.
  destruct (run_lookup_unlink _ _ _ _ Hfirst) as [s' Hun].
  pose proof (Remove_spec t k u Hok Hne) as HR. unfold Remove_outcome in HR.
  set (bin := hash (table_size t) k) in *.
  pose proof (before_run_from bin (entry_list t)) as Hsplit.
  destruct (run_from bin (entry_list t)) as [|n s] eqn:Hrun; [discriminate|].
  rewrite Hun in HR.
  apply unlink_Some in Hun as (m1 & a & w & m2 & Hs & -> & _ & _ & Hkw & ->).
  eexists. exists (before_run bin (entry_list t) ++ m1), a, w, m2.
  split; [exact HR|]. split; [exact (Remove_ok _ _ _ _ _ Hok HR)|].
  split; [reflexivity|]. split; [reflexivity|]. simpl.
  rewrite Hs in Hsplit. rewrite <- !app_assoc.
  split; [exact Hsplit|]. split; [reflexivity|].
  split; [apply key_eqb_eq, Hkw | reflexivity].
Qed.

Lemma Remove_absent_spec t k u :
  table_ok t -> table_size t <> 0 -> first_with k (entry_list t) = None ->
  Remove t k u = Fail AssertFailed \/ Remove t k u = Done (u, t).
Proof.
  intros Hok Hne Hfirst. pose proof Hok as [_ Hlists].
  rewrite <- (lookup_global _ _ _ k Hlists) in Hfirst.
  rewrite (Remove_spec t k u Hok Hne). unfold Remove_outcome.
  destruct (run_from _ _) as [|n s]; [left; reflexivity|].
  apply run_lookup_scan, scan_run_None in Hfirst. rewrite Hfirst. right. reflexivity.
Qed.

(** Property X8.  [Remove] of a key the table holds returns the value [Find] yields for
    it and unlinks that one entry: [GetSize] drops by one, the pairs held
    are those held before less the pair returned, and the key is held once
    less. *)
Theorem Remove_present size cs t k out out_data :
  session size cs = Done t ->
  HasEntry t k = Done true ->
  exists v t',
    Find t k out = Done (true, v)
    /\ Remove t k out_data = Done (v, t')
    /\ GetSize t' = GetSize t - 1
    /\ pairs_of (entry_list t) ≡ₚ (k, v) :: pairs_of (entry_list t')
    /\ count_key k (entry_list t) = S (count_key k (entry_list t')).
Proof.
  intros Hs Hhas. pose proof (session_ok _ _ _ Hs) as Hok.
  pose proof (HasEntry_Done_size _ _ _ Hhas) as Hne.
  rewrite (HasEntry_global _ _ Hok Hne) in Hhas.
  destruct (first_with k (entry_list t)) as [v|] eqn:Hfirst; [|discriminate].
  destruct (Remove_present_spec t k out_data v Hok Hne Hfirst)
    as (t' & m & a & w & m' & HR & _ & _ & Hcount & Hl & Hl' & Hk & Hv).
  exists v, t'. split; [rewrite (Find_global _ _ _ Hok Hne), Hfirst; reflexivity|].
  split; [exact HR|]. split; [exact Hcount|].
  rewrite Hl, Hl'. unfold pairs_of. rewrite !fmap_app, fmap_cons. simpl.
  rewrite Hk, Hv. split; [symmetry; apply Permutation_middle|].
  rewrite !count_key_app. simpl. rewrite Hk, key_eqb_refl. lia.
Qed.

(** Property X9.  [Remove] of a key, whether it finds it or misses it silently, changes
    the lookup of no other key. *)
Theorem Remove_keeps_other_keys size cs t k out_data v t' k' out :
  session size cs = Done t ->
  Remove t k out_data = Done (v, t') ->
  k' <> k ->
  Find t' k' out = Find t k' out /\ HasEntry t' k' = HasEntry t k'.
Proof.
  intros Hs HR Hk. pose proof (session_ok _ _ _ Hs) as Hok.
  pose proof (Remove_Done_size _ _ _ _ HR) as Hne.
  destruct (first_with k (entry_list t)) as [v0|] eqn:Hfirst.
  - destruct (Remove_present_spec t k out_data v0 Hok Hne Hfirst)
      as (t0 & m & a & w & m' & HR0 & Hok0 & Hsz & _ & Hl & Hl' & Hkw & _).
    rewrite HR0 in HR. injection HR as <- <-.
    assert (Hne0 : table_size t0 <> 0) by congruence.
    rewrite (Find_global _ _ _ Hok0 Hne0), (Find_global _ _ _ Hok Hne).
    rewrite (HasEntry_global _ _ Hok0 Hne0), (HasEntry_global _ _ Hok Hne).
    rewrite Hl, Hl', (first_with_delete k' m a w m'); [split; reflexivity|].
    apply key_eqb_ne. congruence.
  - destruct (Remove_absent_spec t k out_data Hok Hne Hfirst) as [HR0|HR0];
      rewrite HR0 in HR; [discriminate|].
    injection HR as <- <-. split; reflexivity.
Qed.

Lemma Remove_all_copies k u n :
  forall t, table_ok t -> table_size t <> 0 -> count_key k (entry_list t) = n ->
  exists t',
    perform_all t (replicate n (CallRemove k u)) = Done t'
    /\ table_ok t' /\ table_size t' = table_size t
    /\ count_key k (entry_list t') = O
    /\ entry_count t' = entry_count t - Z.of_nat n.
Proof.
  induction n as [|n IH]; intros t Hok Hne Hcount.
  - exists t. simpl. split; [reflexivity|]. split; [exact Hok|].
    split; [reflexivity|]. split; [exact Hcount | lia].
  - destruct (first_with k (entry_list t)) as [v|] eqn:Hfirst;
      [|apply first_with_count in Hfirst; congruence].
    destruct (Remove_present_spec t k u v Hok Hne Hfirst)
      as (t1 & m & a & w & m' & HR & Hok1 & Hsz & Hc1 & Hl & Hl' & Hkw & _).
    destruct (IH t1 Hok1 ltac:(congruence)) as (t' & Hall & Hok' & Hsz' & Hzero & Hc').
    { rewrite Hl in Hcount. rewrite Hl'. rewrite count_key_app in *. simpl in Hcount.
      rewrite Hkw, key_eqb_refl in Hcount. lia. }
    exists t'. simpl. rewrite HR. simpl. split; [exact Hall|]. split; [exact Hok'|].
    split; [congruence|]. split; [exact Hzero | lia].
Qed.

(** Property X10.  Removing a key as often as the entry list holds it makes it absent:
    the calls all complete, [HasEntry] is then false and [GetSize] has
    dropped by that number. *)
Theorem Remove_every_copy size cs t k out_data :
  session size cs = Done t ->
  table_size t <> 0 ->
  exists t',
    perform_all t
      (replicate (count_key k (entry_list t)) (CallRemove k out_data)) = Done t'
    /\ HasEntry t' k = Done false
    /\ GetSize t' = GetSize t - Z.of_nat (count_key k (entry_list t)).
Proof.
  intros Hs Hne. pose proof (session_ok _ _ _ Hs) as Hok.
  destruct (Remove_all_copies k out_data _ t Hok Hne eq_refl) as (t' & Hall & Hok' & Hsz & Hzero & Hc).
  exists t'. split; [exact Hall|]. split; [|exact Hc].
  rewrite (HasEntry_global _ _ Hok'); [|congruence].
  apply first_with_count in Hzero. rewrite Hzero. reflexivity.
Qed.

(** Property X7.  [SetValue] of a key changes the lookup of no other key. *)
Theorem SetValue_keeps_other_keys size cs t k d k' out :
  session size cs = Done t ->
  table_size t <> 0 ->
  k' <> k ->
  exists t',
    SetValue t k d = Done t'
    /\ Find t' k' out = Find t k' out
    /\ HasEntry t' k' = HasEntry t k'.
Proof.
  intros Hs Hne Hk. pose proof (session_ok _ _ _ Hs) as Hok.
  assert (Hkk : key_eqb k k' = false) by (apply key_eqb_ne; congruence).
  pose proof (SetValue_spec t k d Hok Hne) as Hsv. unfold SetValue_outcome in Hsv.
  set (bin := hash (table_size t) k) in *.
  destruct (scan_run bin k (run_from bin (entry_list t))) as [p|] eqn:Hscan.
  - eexists. split; [exact Hsv|].
    pose proof (SetValue_ok _ _ _ _ Hok Hsv) as Hok'.
    rewrite (Find_global _ _ _ Hok' Hne), (Find_global _ _ _ Hok Hne).
    rewrite (HasEntry_global _ _ Hok' Hne), (HasEntry_global _ _ Hok Hne).
    apply scan_run_Some in Hscan as (m1 & a & w & m2 & _ & Hrun & Hm1 & Hw & Hkw).
    pose proof (before_run_from bin (entry_list t)) as Hsplit.
    cbn [entry_list]. set (l1 := before_run bin (entry_list t)) in *.
    rewrite Hrun in Hsplit |- *. rewrite (assign_passed _ _ _ _ _ _ _ Hm1 Hw Hkw).
    rewrite Hsplit, !app_assoc. apply key_eqb_eq in Hkw.
    rewrite (first_with_store k' _ a w (mkEntry (key w) (id w) d) m2);
      [split; reflexivity | rewrite Hkw; exact Hkk | simpl; rewrite Hkw; exact Hkk].
  - rewrite (Add_spec _ _ _ Hok Hne) in Hsv.
    pose proof (Add_result_ok t k d Hok Hne) as Hok'.
    exists (Add_result t k d). split; [exact Hsv|].
    rewrite (Find_global _ _ _ Hok' Hne), (Find_global _ _ _ Hok Hne).
    rewrite (HasEntry_global _ _ Hok' Hne), (HasEntry_global _ _ Hok Hne).
    simpl. rewrite first_with_place; [split; reflexivity | exact Hkk].
Qed.

Lemma first_with_None_keys k l : first_with k l = None <-> k ∉ (pairs_of l).*1.
Proof.
  rewrite first_with_None. unfold pairs_of. rewrite <- list_fmap_compose. split.
  - intros Hall Hin. apply list_elem_of_fmap in Hin as (n & Hk & Hn).
    exact (Hall n Hn (eq_sym Hk)).
  - intros Hnot n Hn Hk. apply Hnot. apply list_elem_of_fmap. exists n. auto.
Qed.

Lemma first_with_unique k l a e :
  count_key k l = 1%nat -> (a, e) ∈ l -> key e = k -> first_with k l = Some (data e).
Proof.
  induction l as [|[a0 e0] r IH]; simpl; intros Hcount Hin Hk.
  - apply elem_of_nil in Hin as [].
  - destruct (key_eqb (key e0) k) eqn:Hk0.
    + apply elem_of_cons in Hin as [[= -> ->]|Hin]; [reflexivity|].
      injection Hcount as Hcount. apply first_with_count in Hcount.
      rewrite first_with_None in Hcount. exfalso. exact (Hcount (a, e) Hin Hk).
    + apply elem_of_cons in Hin as [[= -> ->]|Hin]; [|auto].
      apply key_eqb_eq in Hk. congruence.
Qed.

(** Property X11.  [SetTableSize] to a size of at least 1 keeps what the table holds:
    [GetSize] and, for every key, [HasEntry] are as before. *)
Theorem SetTableSize_keeps_keys size cs t new_size k :
  session size cs = Done t ->
  table_size t <> 0 ->
  1 <= new_size ->
  exists t',
    SetTableSize t new_size = Done t'
    /\ GetSize t' = GetSize t
    /\ HasEntry t' k = HasEntry t k.
Proof.
  intros Hs Hne Hsize. pose proof (session_ok _ _ _ Hs) as Hok.
  destruct (SetTableSize_Done t new_size Hok) as (t' & Hset & Hsz & Hperm); [lia|].
  pose proof (SetTableSize_ok _ _ _ Hok Hset) as Hok'.
  exists t'. split; [exact Hset|]. split.
  - unfold SetTableSize in Hset. destruct (new_size <? 0); [discriminate|].
    destruct (SetTableSize_loop _ _ _ _) as [[l c]|]; [|discriminate].
    injection Hset as <-. reflexivity.
  - rewrite (HasEntry_global _ _ Hok'), (HasEntry_global _ _ Hok Hne); [|lia].
    destruct (first_with k (entry_list t')) as [v'|] eqn:H1;
      destruct (first_with k (entry_list t)) as [v|] eqn:H2; try reflexivity; exfalso.
    + apply first_with_None_keys in H2. rewrite <- Hperm in H2.
      apply first_with_None_keys in H2. congruence.
    + apply first_with_None_keys in H1. rewrite Hperm in H1.
      apply first_with_None_keys in H1. congruence.
Qed.

(** Property X12.  For a key the entry list holds once, [Find] yields the same value
    after [SetTableSize] as before. *)
Theorem SetTableSize_keeps_single_values size cs t new_size k v out :
  session size cs = Done t ->
  1 <= new_size ->
  Find t k out = Done (true, v) ->
  count_key k (entry_list t) = 1%nat ->
  exists t', SetTableSize t new_size = Done t' /\ Find t' k out = Done (true, v).
Proof.
  intros Hs Hsize Hfind Hcount. pose proof (session_ok _ _ _ Hs) as Hok.
  assert (Hne : table_size t <> 0).
  { unfold Find, FindEntry, HashKey, HashKey_at in Hfind. intros Hz.
    rewrite Hz in Hfind. discriminate. }
  destruct (SetTableSize_Done t new_size Hok) as (t' & Hset & Hsz & Hperm); [lia|].
  pose proof (SetTableSize_ok _ _ _ Hok Hset) as Hok'.
  exists t'. split; [exact Hset|].
  rewrite (Find_global _ _ _ Hok Hne) in Hfind.
  rewrite (Find_global _ _ _ Hok'); [|lia].
  destruct (first_with k (entry_list t)) as [v0|] eqn:H2; [|discriminate].
  injection Hfind as ->.
  destruct (first_with k (entry_list t')) as [v'|] eqn:H1.
  - apply first_with_Some in H1 as (a' & e' & Hin' & Hk' & Hv').
    assert (Hpair : (k, v') ∈ pairs_of (entry_list t)).
    { rewrite <- Hperm. unfold pairs_of. apply list_elem_of_fmap.
      exists (a', e'). simpl. rewrite Hk', Hv'. auto. }
    unfold pairs_of in Hpair. apply list_elem_of_fmap in Hpair as ([a e] & [= Hk Hv] & Hin).
    rewrite (first_with_unique k _ a e Hcount Hin (eq_sym Hk)) in H2. congruence.
  - exfalso. apply first_with_None_keys in H1. rewrite Hperm in H1.
    apply first_with_None_keys in H1. congruence.
Qed.
End Isolation_facts.

(** ** Duplicate keys and the upsert *)

Section Shadowing_claims.
Context {K V : Type} `{HashType K} `{Inhabited V}.
Implicit Types (l s m : tList (tHashEntry K V)) (e w : tHashEntry K V).
Implicit Types (t : tHashTable K V) (cs : list (call K V)) (k : K).

Lemma first_with_held k l :
  (exists a e, (a, e) ∈ l /\ key e = k) -> first_with k l <> None.
Proof.
  intros (a & e & Hin & Hk) Hnone. rewrite first_with_None in Hnone.
  exact (Hnone (a, e) Hin Hk).
Qed.

Lemma count_key_place k b p e l :
  count_key k (place_before b (p, e) l)
  = ((if key_eqb (key e) k then 1 else 0) + count_key k l)%nat.
Proof.
  induction l as [|[a y] r IH]; simpl.
  - destruct (key_eqb (key e) k); reflexivity.
  - destruct (id y =? b); simpl.
    + destruct (key_eqb (key e) k); reflexivity.
    + rewrite IH. destruct (key_eqb (key y) k), (key_eqb (key e) k); lia.
Qed.

Lemma passed_first_with bin k m : Forall (passed bin k) m -> first_with k m = None.
Proof.
  induction m as [|[a e] r IH]; intros Hm; [reflexivity|].
  apply Forall_cons in Hm as [[_ He] Hm]. simpl in *. rewrite He. exact (IH Hm).
Qed.

(** [SetValue] on a key the entry list holds: the entry overwritten is the
    first of the whole list that carries the key. *)
Lemma SetValue_first t k d :
  table_ok t -> table_size t <> 0 -> first_with k (entry_list t) <> None ->
  exists l1 a w l2,
    entry_list t = l1 ++ (a, w) :: l2
    /\ key w = k
    /\ first_with k l1 = None
    /\ SetValue t k d
       = Done (mkTable (entry_count t) (table_size t)
                 (l1 ++ (a, mkEntry (key w) (id w) d) :: l2) (cell_array t)).
Proof.
  intros Hok Hne Hheld. pose proof Hok as [_ Hlists].
  rewrite <- (lookup_global _ _ _ k Hlists) in Hheld.
  rewrite (SetValue_spec _ _ _ Hok Hne). unfold SetValue_outcome.
  set (bin := hash (table_size t) k) in *.
  pose proof (before_run_from bin (entry_list t)) as Hsplit.
  pose proof (before_run_ids bin (entry_list t)) as Hb.
  pose proof (ok_hash _ _ _ Hlists) as Hhash.
  set (l0 := before_run bin (entry_list t)) in *.
  destruct (scan_run bin k (run_from bin (entry_list t))) as [p|] eqn:Hscan.
  - apply scan_run_Some in Hscan as (m1 & a & w & m2 & -> & Hrun & Hm1 & Hw & Hkw).
    exists (l0 ++ m1), a, w, m2.
    rewrite Hrun in Hsplit |- *.
    rewrite (assign_passed _ _ _ _ _ _ _ Hm1 Hw Hkw), <- !app_assoc.
    split; [exact Hsplit|]. split; [apply key_eqb_eq, Hkw|]. split; [|reflexivity].
    rewrite first_with_app, (passed_first_with _ _ _ Hm1).
    rewrite Hsplit in Hhash. apply Forall_app in Hhash as [Hbefore _].
    rewrite (first_with_absent _ k _ Hbefore Hb). reflexivity.
  - apply run_lookup_scan in Hscan. congruence.
Qed.

Lemma SetValue_new t k d :
  table_ok t -> table_size t <> 0 -> first_with k (entry_list t) = None ->
  SetValue t k d = Add t k d.
Proof.
  intros Hok Hne Hnone. pose proof Hok as [_ Hlists].
  rewrite <- (lookup_global _ _ _ k Hlists) in Hnone.
  rewrite (SetValue_spec _ _ _ Hok Hne). unfold SetValue_outcome.
  apply run_lookup_scan in Hnone. rewrite Hnone. reflexivity.
Qed.

Lemma SetValue_held t k d :
  table_ok t -> table_size t <> 0 -> first_with k (entry_list t) <> None ->
  exists t',
    SetValue t k d = Done t'
    /\ table_ok t' /\ table_size t' = table_size t
    /\ entry_count t' = entry_count t
    /\ length (entry_list t') = length (entry_list t)
    /\ count_key k (entry_list t') = count_key k (entry_list t)
    /\ first_with k (entry_list t') = Some d.
Proof.
  intros Hok Hne Hheld.
  destruct (SetValue_first t k d Hok Hne Hheld) as (l1 & a & w & l2 & Hl & Hk & Hl1 & Hsv).
  eexists. split; [exact Hsv|].
  split; [exact (SetValue_ok _ _ _ _ Hok Hsv)|].
  split; [reflexivity|]. split; [reflexivity|]. simpl. rewrite Hl.
  split; [rewrite !length_app; reflexivity|].
  split.
  - rewrite !count_key_app. reflexivity.
  - rewrite first_with_app, Hl1. simpl. rewrite Hk, key_eqb_refl. reflexivity.
Qed.

(** Claim C2, amended.  On any table the methods have built: after
    [Add(k, v1)] and [Add(k, v2)], [Find(k)] yields [v2]; one [Remove(k)]
    returns [v2], after which [Find(k)] yields [v1]; a second [Remove(k)]
    returns [v1] and leaves the table exactly as it was before the two
    [Add]s.  The key is then absent when no entry carried it before, and
    still present when one did. *)
Theorem Add_twice_shadows size cs t k v1 v2 out out_data out_data' :
  session size cs = Done t ->
  table_size t <> 0 ->
  exists t1 t2 t3,
    Add t k v1 = Done t1 /\ Add t1 k v2 = Done t2
    /\ Find t2 k out = Done (true, v2)
    /\ Remove t2 k out_data = Done (v2, t3) /\ Find t3 k out = Done (true, v1)
    /\ Remove t3 k out_data' = Done (v1, t)
    /\ ((forall n, n ∈ entry_list t -> key n.2 <> k) -> HasEntry t k = Done false)
    /\ ((exists a e, (a, e) ∈ entry_list t /\ key e = k) -> HasEntry t k = Done true).
Proof.
  intros Hs Hne. pose proof (session_ok _ _ _ Hs) as Hok.
  pose proof (Add_result_ok t k v1 Hok Hne) as Hok1.
  assert (Hne1 : table_size (Add_result t k v1) <> 0) by exact Hne.
  exists (Add_result t k v1), (Add_result (Add_result t k v1) k v2), (Add_result t k v1).
  split; [apply Add_spec; assumption|].
  split; [apply Add_spec; assumption|].
  split; [apply Find_Add; assumption|].
  split; [apply Remove_Add; assumption|].
  split; [apply Find_Add; assumption|].
  split; [apply Remove_Add; assumption|].
  rewrite (HasEntry_global _ _ Hok Hne). split.
  - intros Habsent. apply first_with_None in Habsent. rewrite Habsent. reflexivity.
  - intros Hheld. apply first_with_held in Hheld.
    destruct (first_with k (entry_list t)); [reflexivity | congruence].
Qed.

(** Claim C4.  [SetValue] on a key some entry carries overwrites, in place,
    the data of the first entry of the list that carries it: no entry is
    created and [entry_count] stays.  On a key no entry carries it is
    [Add].  Either way [Find] then yields the value set and the key is held
    once more only if it was not held at all; a further [SetValue] on the
    key leaves the number of entries, and of entries with that key, as it
    is. *)
Theorem SetValue_upsert size cs t k d out :
  session size cs = Done t ->
  table_size t <> 0 ->
  ((exists a e, (a, e) ∈ entry_list t /\ key e = k) ->
     exists l1 a w l2,
       entry_list t = l1 ++ (a, w) :: l2
       /\ key w = k
       /\ (forall n, n ∈ l1 -> key n.2 <> k)
       /\ SetValue t k d
          = Done (mkTable (entry_count t) (table_size t)
                    (l1 ++ (a, mkEntry (key w) (id w) d) :: l2) (cell_array t)))
  /\ ((forall n, n ∈ entry_list t -> key n.2 <> k) -> SetValue t k d = Add t k d)
  /\ (exists t',
        SetValue t k d = Done t'
        /\ Find t' k out = Done (true, d)
        /\ count_key k (entry_list t') = Nat.max 1 (count_key k (entry_list t))
        /\ forall d', exists t'',
             SetValue t' k d' = Done t''
             /\ entry_count t'' = entry_count t'
             /\ length (entry_list t'') = length (entry_list t')
             /\ count_key k (entry_list t'') = count_key k (entry_list t')
             /\ Find t'' k out = Done (true, d')).
Proof.
  intros Hs Hne. pose proof (session_ok _ _ _ Hs) as Hok.
  split; [|split].
  - intros Hheld. apply first_with_held in Hheld.
    destruct (SetValue_first t k d Hok Hne Hheld) as (l1 & a & w & l2 & Hl & Hk & Hl1 & Hsv).
    exists l1, a, w, l2. split; [exact Hl|]. split; [exact Hk|].
    split; [apply first_with_None, Hl1 | exact Hsv].
  - intros Habsent. apply SetValue_new; [assumption..|].
    apply first_with_None, Habsent.
  - assert (Hfirst : exists t',
              SetValue t k d = Done t' /\ table_ok t' /\ table_size t' = table_size t
              /\ count_key k (entry_list t') = Nat.max 1 (count_key k (entry_list t))
              /\ first_with k (entry_list t') = Some d).
    { destruct (first_with k (entry_list t)) as [v|] eqn:Hf.
      - destruct (SetValue_held t k d Hok Hne) as (t' & Hsv & Hok' & Hsz & _ & _ & Hc & Hf');
          [congruence|].
        exists t'. split; [exact Hsv|]. split; [exact Hok'|]. split; [exact Hsz|].
        split; [|exact Hf']. rewrite Hc.
        destruct (count_key k (entry_list t)) eqn:Hn; [|lia].
        apply first_with_count in Hn. congruence.
      - exists (Add_result t k d).
        rewrite (SetValue_new t k d Hok Hne Hf).
        split; [apply Add_spec; assumption|].
        split; [apply Add_result_ok; assumption|]. split; [reflexivity|].
        pose proof (Find_Add t k d out Hok Hne) as HF.
        rewrite (Find_global _ _ _ (Add_result_ok _ _ _ Hok Hne) Hne) in HF.
        split.
        + simpl. rewrite count_key_place. simpl. rewrite key_eqb_refl.
          apply first_with_count in Hf. rewrite Hf. reflexivity.
        + destruct (first_with k (entry_list (Add_result t k d))); congruence. }
    destruct Hfirst as (t' & Hsv & Hok' & Hsz & Hc & Hf').
    assert (Hne' : table_size t' <> 0) by congruence.
    exists t'. split; [exact Hsv|].
    split; [rewrite (Find_global _ _ _ Hok' Hne'), Hf'; reflexivity|].
    split; [exact Hc|].
    intros d'.
    destruct (SetValue_held t' k d' Hok' Hne') as (t'' & Hsv' & Hok'' & Hsz' & Hcount & Hlen & Hc' & Hf'');
      [congruence|].
    exists t''. split; [exact Hsv'|]. split; [exact Hcount|]. split; [exact Hlen|].
    split; [exact Hc'|].
    rewrite (Find_global _ _ _ Hok''), Hf''; [reflexivity | congruence].
Qed.
End Shadowing_claims.

(** ** Clearing the table and taking its values *)

Section Whole_table_facts.
Context {K V : Type} `{HashType K} `{Inhabited V}.
Implicit Types (l s m : tList (tHashEntry K V)) (e w : tHashEntry K V).
Implicit Types (t : tHashTable K V) (cs : list (call K V)) (k : K).

Lemma ClearAll_loop_empties l :
  forall fuel, (length l < fuel)%nat -> ClearAll_loop fuel l Root = Done [].
Proof.
  induction l as [|[a e] r IH]; intros fuel Hfuel;
    (destruct fuel as [|fuel]; [simpl in Hfuel; lia|]).
  - reflexivity.
  - cbn [ClearAll_loop tListIterator.Next tList.first_pos bind tListIterator.Get
         tListIterator.Remove tList.split_at].
    rewrite Nat.eqb_refl. cbn [bind app tList.last_pos rev tList.first_pos].
    apply IH. simpl in Hfuel. lia.
Qed.

Lemma SetAll_replicate {X : Type} (a : list X) (x : X) :
  tArray_SetAll a x = replicate (length a) x.
Proof.
  unfold tArray_SetAll. induction a as [|y a IH]; simpl; [reflexivity|].
  f_equal. exact IH.
Qed.

(** Property X13.  [ClearAll] always completes, with no entry left, [entry_count] 0 and
    every cell empty; on a table a session has reached it gives back the
    table the constructor builds for the same size. *)
Theorem ClearAll_is_fresh size cs t :
  session size cs = Done t ->
  ClearAll t = tHashTable_new (table_size t)
  /\ exists t', ClearAll t = Done t' /\ GetSize t' = 0 /\ entry_list t' = [].
Proof.
  intros Hs. destruct (session_ok _ _ _ Hs) as [_ Hok].
  pose proof (ok_size _ _ _ Hok) as Hsz.
  assert (HC : ClearAll t
               = Done (mkTable 0 (table_size t) [] (replicate (length (cell_array t)) None))).
  { unfold ClearAll. unfold tListIterator.Reset.
    rewrite (ClearAll_loop_empties (entry_list t)) by lia.
    cbn [bind]. rewrite SetAll_replicate. reflexivity. }
  split.
  - rewrite HC. unfold tHashTable_new. destruct (Z.ltb_spec (table_size t) 0); [lia|].
    rewrite Hsz, Nat2Z.id. reflexivity.
  - eexists. split; [exact HC|]. split; reflexivity.
Qed.

Lemma GetValues_loop_spec l2 :
  forall fuel l1 (pre rest : list V),
    NoDup (l1 ++ l2).*1 -> (length l2 < fuel)%nat -> length rest = length l2 ->
    GetValues_loop fuel (l1 ++ l2) (tList.last_pos l1) (pre ++ rest)
      (Z.of_nat (length pre))
    = Done (pre ++ ((fun n => data n.2) <$> l2)).
Proof.
  induction l2 as [|[a e] l2 IH]; intros fuel l1 pre rest Hnd Hfuel Hlen;
    (destruct fuel as [|fuel]; [simpl in Hfuel; lia|]);
    cbn [GetValues_loop]; rewrite (Next_last l1 _ Hnd); cbn [bind];
    rewrite (Get_first l1 _ Hnd); cbn [bind fmap list_fmap head snd].
  - destruct rest; [reflexivity | discriminate].
  - destruct rest as [|y rest]; [discriminate|].
    unfold tArray.set. destruct (Z.ltb_spec (Z.of_nat (length pre)) 0); [lia|].
    rewrite Nat2Z.id.
    destruct (Nat.ltb_spec (length pre) (length (pre ++ y :: rest)));
      [|rewrite length_app in *; simpl in *; lia].
    cbn [bind].
    replace (<[length pre := data e]> (pre ++ y :: rest)) with ((pre ++ [data e]) ++ rest).
    2:{ rewrite <- (Nat.add_0_r (length pre)), insert_app_r, <- app_assoc. reflexivity. }
    replace (Z.of_nat (length pre) + 1) with (Z.of_nat (length (pre ++ [data e])))
      by (rewrite length_app; simpl; lia).
    change (tList.first_pos ((a, e) :: l2)) with (At a).
    rewrite <- (last_pos_snoc l1 a e).
    replace (l1 ++ (a, e) :: l2) with ((l1 ++ [(a, e)]) ++ l2) in *
      by (rewrite <- app_assoc; reflexivity).
    rewrite (IH fuel (l1 ++ [(a, e)]) (pre ++ [data e]) rest Hnd);
      [|simpl in Hfuel; lia | simpl in Hlen; lia].
    rewrite <- app_assoc. reflexivity.
Qed.

Lemma GetValues_spec t (value_array : list V) :
  table_ok t -> GetValues t value_array = Done ((fun n => data n.2) <$> entry_list t).
Proof.
  intros [Hcount Hok]. unfold GetValues, tArray_Resize.
  destruct (Z.ltb_spec (entry_count t) 0); [lia|]. cbn [bind].
  rewrite Hcount, Nat2Z.id.
  pose proof (GetValues_loop_spec (entry_list t) (S (length (entry_list t))) [] []
                (take (length (entry_list t))
                   (value_array ++ replicate (length (entry_list t)) inhabitant))
                (ok_nodup _ _ _ Hok) ltac:(lia)) as Hloop.
  simpl in Hloop. apply Hloop.
  rewrite length_take, length_app, length_replicate. lia.
Qed.

(** Property X14.  [GetValues] into an array, on a table a session has reached, stays
    within the array it has resized to [entry_count] and fills it with the
    data of the entries in the order of the entry list, whatever the array
    held before. *)
Theorem GetValues_in_list_order size cs t (value_array : list V) :
  session size cs = Done t ->
  GetValues t value_array = Done ((fun n => data n.2) <$> entry_list t)
  /\ Z.of_nat (length ((fun n => data n.2) <$> entry_list t)) = GetSize t.
Proof.
  intros Hs. pose proof (session_ok _ _ _ Hs) as Hok.
  split; [apply GetValues_spec, Hok|].
  destruct Hok as [Hcount _]. rewrite length_fmap. symmetry. exact Hcount.
Qed.

(** Property X15.  The keys [AsLists] puts out are the keys [HasEntry] finds, the pairs
    number [GetSize], every pair [Find] yields is among them, and the
    values are those [GetValues] yields, in another order. *)
Theorem AsLists_agrees_with_lookup size cs t :
  session size cs = Done t ->
  table_size t <> 0 ->
  exists kl vl vs,
    AsLists t [] [] = Done (kl, vl)
    /\ GetValues t [] = Done vs
    /\ Z.of_nat (length kl) = GetSize t
    /\ vl.*2 ≡ₚ vs
    /\ (forall k, k ∈ kl.*2 <-> HasEntry t k = Done true)
    /\ (forall k v out, Find t k out = Done (true, v) -> (k, v) ∈ zip (kl.*2) (vl.*2)).
Proof.
  intros Hs Hne. pose proof (session_ok _ _ _ Hs) as Hok.
  destruct (AsLists_spec t Hok) as (kl & vl & HAs & Hlen & Hzip & _).
  assert (Hkeys : kl.*2 = (snapshot (entry_list t)).*1).
  { rewrite <- Hzip. symmetry. apply fst_zip. rewrite !length_fmap. lia. }
  assert (Hvals : vl.*2 = (snapshot (entry_list t)).*2).
  { rewrite <- Hzip. symmetry. apply snd_zip. rewrite !length_fmap. lia. }
  exists kl, vl, ((fun n => data n.2) <$> entry_list t).
  split; [exact HAs|]. split; [apply GetValues_spec, Hok|]. split; [|split; [|split]].
  - destruct Hok as [Hcount _]. unfold GetSize. rewrite Hcount. f_equal.
    rewrite <- (length_fmap snd kl), Hkeys, length_fmap.
    rewrite (snapshot_perm (entry_list t)). unfold pairs_of. apply length_fmap.
  - rewrite Hvals, snapshot_perm. unfold pairs_of. rewrite <- list_fmap_compose.
    reflexivity.
  - intros k. rewrite (HasEntry_global _ _ Hok Hne), Hkeys, snapshot_perm.
    destruct (first_with k (entry_list t)) as [v|] eqn:Hf.
    + split; [reflexivity|]. intros _.
      apply first_with_Some in Hf as (a & e & Hin & Hk & _).
      rewrite pairs_of_keys. apply list_elem_of_fmap. exists (a, e). auto.
    + apply first_with_None_keys in Hf. split; [intros Hin; contradiction | discriminate].
  - intros k v out. rewrite (Find_global _ _ _ Hok Hne), Hzip, snapshot_perm.
    destruct (first_with k (entry_list t)) as [v0|] eqn:Hf; [|discriminate].
    intros [= <-]. apply first_with_Some in Hf as (a & e & Hin & Hk & Hv).
    unfold pairs_of. apply list_elem_of_fmap. exists (a, e). simpl.
    rewrite Hk, Hv. auto.
Qed.
End Whole_table_facts.

(** ** Further facts about [NearMatch] *)

Section NearMatch_facts.
Context {T : Type} `{Inhabited T}.
Variable EditDistance : cString -> cString -> Z.
Implicit Types (d : tDictionary T) (cs : list (call cString T)).

Lemma NearMatch_computes size cs d name :
  session size cs = Done (m_hash d) ->
  exists ks,
    ks ≡ₚ stored_keys d
    /\ NearMatch EditDistance d name
       = Done (nearest EditDistance name ks EmptyString (cString_size name)).
Proof.
  intros Hs. pose proof (session_ok _ _ _ Hs) as Hok.
  destruct (AsLists_keys (m_hash d) Hok) as (kl & vl & HAs & Hnd & _ & Hperm).
  exists (kl.*2). split; [exact Hperm|].
  unfold NearMatch, tDictionary_AsLists. rewrite HAs. cbn [bind].
  exact (NearMatch_loop_spec EditDistance name kl (S (length kl)) [] _ _ Hnd ltac:(lia)).
Qed.

(** Property X16.  When the query is itself a stored key, and the distance is 0 from
    the query to itself and to no other stored key and never negative,
    [NearMatch] returns the query. *)
Theorem NearMatch_exact size cs d name :
  session size cs = Done (m_hash d) ->
  name ∈ stored_keys d ->
  EditDistance name name = 0 ->
  (forall k, k ∈ stored_keys d ->
     0 <= EditDistance name k /\ (EditDistance name k = 0 -> k = name)) ->
  NearMatch EditDistance d name = Done name.
Proof.
  intros Hs Hin Hzero Hdist.
  destruct (NearMatch_computes size cs d name Hs) as (ks & Hperm & ->). f_equal.
  pose proof (nearest_spec EditDistance name ks EmptyString (cString_size name)) as Hn.
  simpl in Hn. set (r := nearest _ _ _ _ _) in *.
  destruct Hn as [[Hall Hr]|(ks1 & ks2 & Hks & Hd & H1 & H2)].
  - rewrite Forall_forall in Hall. rewrite <- Hperm in Hin.
    specialize (Hall name Hin). rewrite Hzero in Hall.
    assert (Hsize : cString_size name = 0) by (unfold cString_size in *; lia).
    rewrite Hr. destruct name; [reflexivity|].
    unfold cString_size in Hsize. simpl in Hsize. lia.
  - assert (Hrin : r ∈ stored_keys d).
    { rewrite <- Hperm, Hks. apply elem_of_app. right. left. }
    destruct (Hdist r Hrin) as [Hge Heq]. apply Heq.
    rewrite <- Hperm, Hks in Hin. rewrite Forall_forall in H1, H2.
    apply elem_of_app in Hin as [Hin|Hin]; [specialize (H1 name Hin); lia|].
    apply elem_of_cons in Hin as [Hin|Hin]; [congruence|].
    specialize (H2 name Hin). lia.
Qed.

(** Property X17.  [NearMatch] has no suggestion, the empty string, on a dictionary
    without entries, and for the empty query whenever no distance is
    negative. *)
Theorem NearMatch_no_suggestion size cs d name :
  session size cs = Done (m_hash d) ->
  (entry_list (m_hash d) = [] -> NearMatch EditDistance d name = Done EmptyString)
  /\ ((forall k, k ∈ stored_keys d -> 0 <= EditDistance EmptyString k) ->
      NearMatch EditDistance d EmptyString = Done EmptyString).
Proof.
  intros Hs. split.
  - intros Hempty. destruct (NearMatch_computes size cs d name Hs) as (ks & Hperm & ->).
    unfold stored_keys in Hperm. rewrite Hempty in Hperm.
    apply Permutation_nil_r in Hperm. rewrite Hperm. reflexivity.
  - intros Hdist.
    destruct (NearMatch_computes size cs d EmptyString Hs) as (ks & Hperm & ->). f_equal.
    pose proof (nearest_spec EditDistance EmptyString ks EmptyString (cString_size EmptyString)) as Hn.
    simpl in Hn. destruct Hn as [[_ Hr]|(ks1 & ks2 & Hks & Hd & _)]; [exact Hr|].
    exfalso. set (r := nearest _ _ _ _ _) in *.
    assert (Hrin : r ∈ stored_keys d).
    { rewrite <- Hperm, Hks. apply elem_of_app. right. left. }
    specialize (Hdist r Hrin). unfold cString_size in Hd. simpl in Hd. lia.
Qed.
End NearMatch_facts.

(** ** The further theorems at work on concrete tables *)

Lemma demo_table_size : table_size demo_table <> 0.
Proof. simpl. lia. Defined.

Lemma Find_whole_list_witness :
  Find demo_table 7 0 = Done (true, 70)
  /\ (HasEntry demo_table 7 = Done true <->
      exists a e, (a, e) ∈ entry_list demo_table /\ key e = 7).
Proof.
  destruct (Find_whole_list 3 demo_calls demo_table 7 0 demo_table_reached demo_table_size)
    as (Hfind & Hhas & _).
  split; [exact Hfind | exact Hhas].
Defined.

Lemma fresh_table_is_empty_witness :
  exists t : tHashTable Z Z,
    tHashTable_new HASH_TABLE_SIZE_DEFAULT = Done t
    /\ GetSize t = 0
    /\ Find t 5 0 = Done (false, 0)
    /\ HasEntry t 5 = Done false
    /\ Remove t 5 40 = Fail AssertFailed.
Proof.
  apply (fresh_table_is_empty (K:=Z) (V:=Z) HASH_TABLE_SIZE_DEFAULT 5 0 40).
  unfold HASH_TABLE_SIZE_DEFAULT. lia.
Defined.

Lemma Add_keeps_other_keys_witness :
  exists t',
    Add demo_table 4 40 = Done t'
    /\ GetSize t' = GetSize demo_table + 1
    /\ Find t' 7 0 = Find demo_table 7 0
    /\ HasEntry t' 7 = HasEntry demo_table 7.
Proof.
  apply (Add_keeps_other_keys 3 demo_calls demo_table 4 40 7 0
           demo_table_reached demo_table_size).
  lia.
Defined.

Lemma SetValue_keeps_other_keys_witness :
  exists t',
    SetValue demo_table 1 12 = Done t'
    /\ Find t' 7 0 = Find demo_table 7 0
    /\ HasEntry t' 7 = HasEntry demo_table 7.
Proof.
  apply (SetValue_keeps_other_keys 3 demo_calls demo_table 1 12 7 0
           demo_table_reached demo_table_size).
  lia.
Defined.

Lemma Remove_present_witness :
  exists v t',
    Find demo_table 7 0 = Done (true, v)
    /\ Remove demo_table 7 40 = Done (v, t')
    /\ GetSize t' = GetSize demo_table - 1
    /\ pairs_of (entry_list demo_table) ≡ₚ (7, v) :: pairs_of (entry_list t')
    /\ count_key 7 (entry_list demo_table) = S (count_key 7 (entry_list t')).
Proof.
  apply (Remove_present 3 demo_calls demo_table 7 0 40 demo_table_reached). reflexivity.
Defined.

Lemma Remove_keeps_other_keys_witness :
  exists v t',
    Remove demo_table 7 40 = Done (v, t')
    /\ Find t' 1 0 = Find demo_table 1 0
    /\ HasEntry t' 1 = HasEntry demo_table 1.
Proof.
  destruct (Remove demo_table 7 40) as [[v t']|f] eqn:HR; [|vm_compute in HR; discriminate].
  exists v, t'. split; [reflexivity|].
  apply (Remove_keeps_other_keys 3 demo_calls demo_table 7 40 v t' 1 0 demo_table_reached HR).
  lia.
Defined.

Lemma Remove_every_copy_witness :
  exists t',
    perform_all demo_table
      (replicate (count_key 7 (entry_list demo_table)) (CallRemove 7 40)) = Done t'
    /\ HasEntry t' 7 = Done false
    /\ GetSize t' = GetSize demo_table - Z.of_nat (count_key 7 (entry_list demo_table)).
Proof.
  apply (Remove_every_copy 3 demo_calls demo_table 7 40 demo_table_reached demo_table_size).
Defined.

Lemma SetTableSize_keeps_keys_witness :
  exists t',
    SetTableSize demo_table HASH_TABLE_SIZE_MEDIUM = Done t'
    /\ GetSize t' = GetSize demo_table
    /\ HasEntry t' 7 = HasEntry demo_table 7.
Proof.
  apply (SetTableSize_keeps_keys 3 demo_calls demo_table HASH_TABLE_SIZE_MEDIUM 7
           demo_table_reached demo_table_size).
  unfold HASH_TABLE_SIZE_MEDIUM. lia.
Defined.

Lemma SetTableSize_keeps_single_values_witness :
  exists t', SetTableSize demo_table 5 = Done t' /\ Find t' 7 0 = Done (true, 70).
Proof.
  apply (SetTableSize_keeps_single_values 3 demo_calls demo_table 5 7 70 0
           demo_table_reached); [lia | reflexivity | reflexivity].
Defined.

Lemma ClearAll_is_fresh_witness :
  ClearAll demo_table = tHashTable_new 3.
Proof.
  exact (proj1 (ClearAll_is_fresh 3 demo_calls demo_table demo_table_reached)).
Defined.

Lemma GetValues_in_list_order_witness :
  GetValues demo_table [5; 6] = Done [11; 70; 20].
Proof.
  exact (proj1 (GetValues_in_list_order 3 demo_calls demo_table [5; 6] demo_table_reached)).
Defined.

Lemma AsLists_agrees_with_lookup_witness :
  exists kl vl vs,
    AsLists demo_table [] [] = Done (kl, vl)
    /\ GetValues demo_table [] = Done vs
    /\ Z.of_nat (length kl) = GetSize demo_table
    /\ vl.*2 ≡ₚ vs.
Proof.
  destruct (AsLists_agrees_with_lookup 3 demo_calls demo_table
              demo_table_reached demo_table_size)
    as (kl & vl & vs & H1 & H2 & H3 & H4 & _).
  exists kl, vl, vs. auto.
Defined.

Lemma NearMatch_exact_witness :
  NearMatch levenshtein demo_dictionary "bat"%string = Done "bat"%string.
Proof.
  apply (NearMatch_exact levenshtein HASH_TABLE_SIZE_DEFAULT demo_words demo_dictionary
           "bat"%string demo_dictionary_reached).
  - unfold stored_keys. simpl. right. left.
  - reflexivity.
  - intros k Hk. unfold stored_keys in Hk. simpl in Hk.
    apply elem_of_cons in Hk as [->|Hk]; [split; [vm_compute; discriminate | vm_compute; discriminate]|].
    apply elem_of_cons in Hk as [->|Hk]; [split; [vm_compute; discriminate | reflexivity]|].
    apply elem_of_nil in Hk as [].
Defined.

Lemma NearMatch_no_suggestion_witness :
  NearMatch levenshtein demo_dictionary EmptyString = Done EmptyString.
Proof.
  apply (proj2 (NearMatch_no_suggestion levenshtein HASH_TABLE_SIZE_DEFAULT demo_words
                  demo_dictionary EmptyString demo_dictionary_reached)).
  intros k Hk. unfold stored_keys in Hk. simpl in Hk.
  repeat (apply elem_of_cons in Hk as [->|Hk]; [vm_compute; discriminate|]).
  apply elem_of_nil in Hk as [].
Defined.

(** ** Duplicate keys, the upsert and the silent miss on concrete tables *)

Lemma demo_table_lacks_4 : forall n, n ∈ entry_list demo_table -> key n.2 <> 4.
Proof.
  intros n Hn. simpl in Hn.
  repeat (apply elem_of_cons in Hn as [->|Hn]; [simpl; lia|]).
  apply elem_of_nil in Hn as [].
Defined.

(** Key 4 hashes to the cell of keys 1 and 7, which is not empty, and no
    entry carries it. *)
Lemma Add_twice_shadows_witness :
  exists t1 t2 t3,
    Add demo_table 4 1 = Done t1 /\ Add t1 4 2 = Done t2
    /\ Find t2 4 0 = Done (true, 2)
    /\ Remove t2 4 40 = Done (2, t3) /\ Find t3 4 0 = Done (true, 1)
    /\ Remove t3 4 41 = Done (1, demo_table)
    /\ HasEntry demo_table 4 = Done false.
Proof.
  destruct (Add_twice_shadows 3 demo_calls demo_table 4 1 2 0 40 41
              demo_table_reached demo_table_size)
    as (t1 & t2 & t3 & H1 & H2 & H3 & H4 & H5 & H6 & Habsent & _).
  exists t1, t2, t3. repeat (split; [assumption|]).
  exact (Habsent demo_table_lacks_4).
Defined.

(** The table already holds key 7: two [Add]s and two [Remove]s later the
    older entry is still there, and [HasEntry] is true. *)
Lemma Add_twice_shadows_counterexample :
  exists t1 t2 t3 t4,
    Add demo_table 7 1 = Done t1 /\ Add t1 7 2 = Done t2
    /\ Remove t2 7 0 = Done (2, t3) /\ Remove t3 7 0 = Done (1, t4)
    /\ HasEntry t4 7 = Done true
    /\ HasEntry t4 7 <> Done false.
Proof.
  do 4 eexists.
  split; [vm_compute; reflexivity|]. split; [vm_compute; reflexivity|].
  split; [vm_compute; reflexivity|]. split; [vm_compute; reflexivity|].
  split; [vm_compute; reflexivity | vm_compute; discriminate].
Qed.

(** Key 4 is not held and its cell is not empty: [SetValue] is [Add] and
    touches no entry.  Key 7 is held, second in its run: its one entry is
    overwritten. *)
Lemma SetValue_upsert_witness :
  SetValue demo_table 4 99 = Add demo_table 4 99
  /\ exists l1 a w l2 t',
       entry_list demo_table = l1 ++ (a, w) :: l2
       /\ key w = 7
       /\ SetValue demo_table 7 77
          = Done (mkTable (entry_count demo_table) (table_size demo_table)
                    (l1 ++ (a, mkEntry (key w) (id w) 77) :: l2)
                    (cell_array demo_table))
       /\ SetValue demo_table 7 77 = Done t'
       /\ Find t' 7 0 = Done (true, 77)
       /\ count_key 7 (entry_list t') = Nat.max 1 (count_key 7 (entry_list demo_table)).
Proof.
  split.
  - exact (proj1 (proj2 (SetValue_upsert 3 demo_calls demo_table 4 99 0
                           demo_table_reached demo_table_size))
             demo_table_lacks_4).
  - destruct (SetValue_upsert 3 demo_calls demo_table 7 77 0
                demo_table_reached demo_table_size)
      as (Hheld & _ & t' & Hsv & Hfind & Hcount & _).
    destruct Hheld as (l1 & a & w & l2 & Hl & Hk & _ & Hset).
    { exists 1%nat, (mkEntry 7 1 70). split; [|reflexivity]. simpl. right. left. }
    exists l1, a, w, l2, t'. auto 10.
Defined.

(** The same miss returns 40 when [out_data] happened to hold 40 and 41
    when it held 41: no value is the one a miss returns. *)
Lemma Remove_failures_counterexample :
  Remove demo_table 10 40 = Done (40, demo_table)
  /\ Remove demo_table 10 41 = Done (41, demo_table)
  /\ ~ (exists dflt : Z, forall out_data, exists t',
          Remove demo_table 10 out_data = Done (dflt, t')).
Proof.
  split; [vm_compute; reflexivity|]. split; [vm_compute; reflexivity|].
  intros [dflt Hd].
  destruct (Hd 40) as [t1 H1]. destruct (Hd 41) as [t2 H2].
  vm_compute in H1, H2. injection H1 as H1 _. injection H2 as H2 _. lia.
Qed.
